(** * Maze-Generator: a shallow embedding of [maze.js] and its properties

    The development follows the source file top to bottom: the wall
    constants, [MazeCell], [getUnvisitedAdjacents], [breakCellWalls],
    [Maze], [reset] and the recursive [generate].  JavaScript numbers are
    modelled as [Z] (the program only ever handles integers), the 32-bit
    bit operators are written out with their wrap-around, and the grid
    [this.cells] is an explicit store threaded through a small state and
    exception monad. *)

From Stdlib Require Import ZArith Lia.
From stdpp Require Import base decidable numbers option list strings.

Local Open Scope Z_scope.

(** ** JavaScript 32-bit integer operators *)

(** [ToInt32]: the value every bitwise operator first applies to its
    operands. *)
Definition toInt32 (z : Z) : Z := (z + 2 ^ 31) mod 2 ^ 32 - 2 ^ 31.

(** [~a] *)
Definition js_not (a : Z) : Z := Z.lnot (toInt32 a).
(** [a & b] *)
Definition js_and (a b : Z) : Z := Z.land (toInt32 a) (toInt32 b).
(** [a | b] *)
Definition js_or (a b : Z) : Z := Z.lor (toInt32 a) (toInt32 b).
(** [a << n]: the shift count is taken modulo 32, the result wraps. *)
Definition js_shl (a n : Z) : Z := toInt32 (Z.shiftl (toInt32 a) (n mod 32)).
(** [a >> n]: sign-propagating shift. *)
Definition js_shr (a n : Z) : Z := Z.shiftr (toInt32 a) (n mod 32).

(** ** Wall constants (maze.js, lines 7-17) *)

Definition WALL_TOP : Z := js_shl 1 3.
Definition WALL_RIGHT : Z := js_shl 1 2.
Definition WALL_BOTTOM : Z := js_shl 1 1.
Definition WALL_LEFT : Z := js_shl 1 0.

(** ** Data *)

(** The [Coordinate] typedef: a plain pair of integers. *)
Record Coordinate : Type := Coord { x : Z; y : Z }.

Global Instance Coordinate_eq_dec : EqDecision Coordinate.
Proof. solve_decision. Defined.

(** The fields of a [MazeCell] object. *)
Record MazeCell : Type := Cell {
  cell_x : Z;
  cell_y : Z;
  walls : Z;
  adjacentCells : list Coordinate;
  visited : bool
}.

(** [new MazeCell(x, y, walls)] (lines 33-64). *)
Definition newMazeCell (cx cy w : Z) : MazeCell :=
  {| cell_x := cx; cell_y := cy; walls := w; adjacentCells := []; visited := false |}.

(** A [Maze] object.  The constructor does not create [cells]; the field
    is [undefined] ([None]) until [reset] runs. *)
Record Maze : Type := {
  width : Z;
  height : Z;
  cells : option (list (list MazeCell))
}.

(** [new Maze(width, height)] (lines 121-134). *)
Definition newMaze (w h : Z) : Maze := {| width := w; height := h; cells := None |}.

(** [l[i]] on a JavaScript array, for an integer [i]; [None] is
    [undefined]. *)
Definition index {A : Type} (l : list A) (i : Z) : option A :=
  if decide (0 ≤ i) then l !! Z.to_nat i else None.

(** The cell object stored at [maze.cells[c.y][c.x]], when there is one. *)
Definition cellAt (m : Maze) (c : Coordinate) : option MazeCell :=
  match cells m with
  | None => None
  | Some cs =>
      match index cs (y c) with
      | None => None
      | Some row => index row (x c)
      end
  end.

(** Every grid position holds its own cell object ([reset] allocates one
    per position), so an object reference is modelled by the position of
    the object in the grid. *)
Abbreviation Ref := Coordinate.

Definition alterAt {A : Type} (f : A → A) (i : Z) (l : list A) : list A :=
  if decide (0 ≤ i) then alter f (Z.to_nat i) l else l.

(** In-place update of the object that [p] refers to. *)
Definition alterCell (f : MazeCell → MazeCell) (p : Ref) (m : Maze) : Maze :=
  {| width := width m;
     height := height m;
     cells := alterAt (alterAt f (x p)) (y p) <$> cells m |}.

Definition setVisited (c : MazeCell) : MazeCell :=
  {| cell_x := cell_x c; cell_y := cell_y c; walls := walls c;
     adjacentCells := adjacentCells c; visited := true |}.

(** [cell.walls = cell.walls & (~wall)] *)
Definition clearWall (wall : Z) (c : MazeCell) : MazeCell :=
  {| cell_x := cell_x c; cell_y := cell_y c;
     walls := js_and (walls c) (js_not wall);
     adjacentCells := adjacentCells c; visited := visited c |}.

(** [cell.adjacentCells.push(coord)] *)
Definition pushAdjacent (coord : Coordinate) (c : MazeCell) : MazeCell :=
  {| cell_x := cell_x c; cell_y := cell_y c; walls := walls c;
     adjacentCells := adjacentCells c ++ [coord]; visited := visited c |}.

(** ** Execution state *)

Inductive JsError : Type := TypeError | RangeError.

(** The two operations that mutate the grid during generation. *)
Inductive Op : Type :=
  | OpVisit (coord : Ref)
  | OpBreak (cellA cellB : Ref) (wall : Z).

(** A mutation together with the maze it leaves behind. *)
Record Snapshot : Type := { op : Op; after : Maze }.

(** The maze plus bookkeeping that the JavaScript run has implicitly:
    how many times [Math.random] was called, how many [generate] frames
    are on the call stack and the largest such number so far, and the log
    of the mutations performed. *)
Record Run : Type := {
  maze : Maze;
  draws : nat;
  frames : nat;
  deepest : nat;
  history : list Snapshot
}.

Definition startRun (m : Maze) : Run :=
  {| maze := m; draws := 0; frames := 0; deepest := 0; history := [] |}.

Inductive Outcome (A : Type) : Type :=
  | Ok (a : A) (r : Run)
  | Throw (e : JsError) (r : Run)
  | OutOfFuel.
Arguments Ok {A} a r.
Arguments Throw {A} e r.
Arguments OutOfFuel {A}.

Definition M (A : Type) : Type := Run → Outcome A.

Definition ret {A : Type} (a : A) : M A := fun r => Ok a r.

Definition bind {A B : Type} (m : M A) (k : A → M B) : M B :=
  fun r =>
    match m r with
    | Ok a r' => k a r'
    | Throw e r' => Throw e r'
    | OutOfFuel => OutOfFuel
    end.

Definition throw {A : Type} (e : JsError) : M A := fun r => Throw e r.

Definition timeout {A : Type} : M A := fun _ => OutOfFuel.

Notation "'let*' v ':=' m 'in' k" := (bind m (fun v => k))
  (at level 10, v name, m at level 100, k at level 200).
Notation "m ';;' k" := (bind m (fun _ => k))
  (at level 100, k at level 200, right associativity).

(** Apply one mutation to the maze and log it. *)
Definition mutate (o : Op) (f : Maze → Maze) : M unit :=
  fun r =>
    let m' := f (maze r) in
    Ok tt {| maze := m'; draws := draws r; frames := frames r; deepest := deepest r;
             history := history r ++ [ {| op := o; after := m' |} ] |}.

(** A write to the maze that is part of a larger operation (not logged on
    its own). *)
Definition update (f : Maze → Maze) : M unit :=
  fun r =>
    Ok tt {| maze := f (maze r); draws := draws r; frames := frames r;
             deepest := deepest r; history := history r |}.

Definition logOp (o : Op) : M unit :=
  fun r =>
    Ok tt {| maze := maze r; draws := draws r; frames := frames r; deepest := deepest r;
             history := history r ++ [ {| op := o; after := maze r |} ] |}.

(** Entering and leaving a [generate] frame. *)
Definition enterFrame : M unit :=
  fun r =>
    Ok tt {| maze := maze r; draws := draws r; frames := S (frames r);
             deepest := Nat.max (deepest r) (S (frames r)); history := history r |}.

Definition leaveFrame : M unit :=
  fun r =>
    Ok tt {| maze := maze r; draws := draws r; frames := Nat.pred (frames r);
             deepest := deepest r; history := history r |}.

(** [this.cells[coord.y][coord.x]]: a [TypeError] when [this.cells] or the
    row is [undefined]; otherwise the cell object or [undefined]. *)
Definition getCell (coord : Coordinate) : M (option Ref) :=
  fun r =>
    match cells (maze r) with
    | None => Throw TypeError r
    | Some cs =>
        match index cs (y coord) with
        | None => Throw TypeError r
        | Some row =>
            match index row (x coord) with
            | None => Ok None r
            | Some _ => Ok (Some coord) r
            end
        end
    end.

(** Reading a property of [ref]: a [TypeError] on [undefined]. *)
Definition deref (ref : option Ref) : M MazeCell :=
  fun r =>
    match ref with
    | None => Throw TypeError r
    | Some p =>
        match cellAt (maze r) p with
        | None => Throw TypeError r
        | Some c => Ok c r
        end
    end.

(** ** [MazeCell.prototype.getUnvisitedAdjacents] (lines 71-83) *)

Fixpoint unvisitedOf (adjacent : list Coordinate) : M (list Coordinate) :=
  match adjacent with
  | [] => ret []
  | coord :: rest =>
      let* cellRef := getCell coord in
      let* cell := deref cellRef in
      let* unvisited := unvisitedOf rest in
      ret (if visited cell then unvisited
           else {| x := cell_x cell; y := cell_y cell |} :: unvisited)
  end.

Definition getUnvisitedAdjacents (this : option Ref) : M (list Coordinate) :=
  let* self := deref this in
  unvisitedOf (adjacentCells self).

(** ** [breakCellWalls] (lines 99-113) *)

(** The wall of [cellB] that faces [cellA] (lines 104-110). *)
Definition oppositeWall (wall : Z) : Z :=
  if (wall =? WALL_TOP) || (wall =? WALL_RIGHT) then js_shr wall 2 else js_shl wall 2.

Definition breakCellWalls (cellA cellB : option Ref) (wall : Z) : M unit :=
  match cellA with
  | None => throw TypeError
  | Some a =>
      update (alterCell (clearWall wall) a) ;;
      match cellB with
      | None => throw TypeError
      | Some b =>
          update (alterCell (clearWall (oppositeWall wall)) b) ;;
          logOp (OpBreak a b wall)
      end
  end.

(** ** [Maze.prototype.reset] (lines 137-175) *)

(** The body of the inner loop: the cell built for column [cx] of row
    [cy]. *)
Definition resetCell (m : Maze) (cx cy : Z) : MazeCell :=
  let cell := newMazeCell cx cy (js_or (js_or (js_or WALL_TOP WALL_RIGHT) WALL_BOTTOM) WALL_LEFT) in
  let cell := if decide (cx - 1 >= 0) then pushAdjacent {| x := cx - 1; y := cy |} cell else cell in
  let cell := if decide (cx + 1 < width m) then pushAdjacent {| x := cx + 1; y := cy |} cell else cell in
  let cell := if decide (cy - 1 >= 0) then pushAdjacent {| x := cx; y := cy - 1 |} cell else cell in
  let cell := if decide (cy + 1 < height m) then pushAdjacent {| x := cx; y := cy + 1 |} cell else cell in
  cell.

(** One row: [x] runs from 0 while [x < this.width]. *)
Definition resetRow (m : Maze) (cy : Z) : list MazeCell :=
  (fun cx => resetCell m cx cy) <$> seqZ 0 (width m).

(** [y] runs from 0 while [y < this.height]. *)
Definition reset (m : Maze) : Maze :=
  {| width := width m;
     height := height m;
     cells := Some ((fun cy => resetRow m cy) <$> seqZ 0 (height m)) |}.

(** ** [Maze.prototype.generate] (lines 182-214) *)

Section Generator.

(** The raw outcome of the [k]-th call of [Math.random]; the index
    [Math.floor(Math.random() * n)] is any number below [n]. *)
Variable random : nat → nat.

Definition randomIndex (n : nat) : M nat :=
  fun r =>
    Ok (random (draws r) mod n)%nat
       {| maze := maze r; draws := S (draws r); frames := frames r;
          deepest := deepest r; history := history r |}.

(** [adjacents[i]]; reading a property of the result fails on
    [undefined]. *)
Definition element (adjacents : list Coordinate) (i : nat) : M Coordinate :=
  match adjacents !! i with
  | None => throw TypeError
  | Some next => ret next
  end.

(** [current.visited = true] *)
Definition markVisited (current : option Ref) : M unit :=
  match current with
  | None => throw TypeError
  | Some p => mutate (OpVisit p) (alterCell setVisited p)
  end.

(** The recursion and the [while] loop both consume [fuel]; the loop is
    entered with the value of [adjacents] computed before its test. *)
Fixpoint generate (fuel : nat) (coord : Coordinate) {struct fuel} : M unit :=
  match fuel with
  | O => timeout
  | S fuel' =>
      enterFrame ;;
      let* current := getCell coord in
      markVisited current ;;
      let* adjacents := getUnvisitedAdjacents current in
      generate_while fuel' coord current adjacents ;;
      leaveFrame
  end
with generate_while (fuel : nat) (coord : Coordinate) (current : option Ref)
                    (adjacents : list Coordinate) {struct fuel} : M unit :=
  match adjacents with
  | [] => ret tt
  | _ :: _ =>
      match fuel with
      | O => timeout
      | S fuel' =>
          let* i := randomIndex (length adjacents) in
          let* next := element adjacents i in
          let* nextNode := getCell next in
          (if decide (x next > x coord) then breakCellWalls current nextNode WALL_RIGHT
           else if decide (x next < x coord) then breakCellWalls current nextNode WALL_LEFT
           else ret tt) ;;
          (if decide (y next > y coord) then breakCellWalls current nextNode WALL_BOTTOM
           else if decide (y next < y coord) then breakCellWalls current nextNode WALL_TOP
           else ret tt) ;;
          generate fuel' next ;;
          let* adjacents' := getUnvisitedAdjacents current in
          generate_while fuel' coord current adjacents'
      end
  end.

End Generator.

(** The wall mask read the way [draw] does (line 235):
    [this.cells[y][x].walls]. *)
Definition wallsAt (m : Maze) (c : Coordinate) : option Z := walls <$> cellAt m c.

(** ** Vocabulary for the statements *)

(** The four sides of a cell, and the bit that [maze.js] uses for each. *)
Inductive Side : Type := OnTop | OnRight | OnBottom | OnLeft.

Global Instance Side_eq_dec : EqDecision Side.
Proof. solve_decision. Defined.

Definition wallOf (s : Side) : Z :=
  match s with
  | OnTop => WALL_TOP
  | OnRight => WALL_RIGHT
  | OnBottom => WALL_BOTTOM
  | OnLeft => WALL_LEFT
  end.

Definition bitOf (s : Side) : Z :=
  match s with OnTop => 3 | OnRight => 2 | OnBottom => 1 | OnLeft => 0 end.

Definition opp (s : Side) : Side :=
  match s with
  | OnTop => OnBottom
  | OnRight => OnLeft
  | OnBottom => OnTop
  | OnLeft => OnRight
  end.

(** The position next to [c] on side [s] ([y] grows downwards, as in
    [reset] and [draw]). *)
Definition towards (c : Coordinate) (s : Side) : Coordinate :=
  match s with
  | OnTop => {| x := x c; y := y c - 1 |}
  | OnRight => {| x := x c + 1; y := y c |}
  | OnBottom => {| x := x c; y := y c + 1 |}
  | OnLeft => {| x := x c - 1; y := y c |}
  end.

(** The test [draw] applies to decide whether a wall is there (lines
    237-249): [(walls & WALL) == WALL]. *)
Definition hasWall (w wall : Z) : bool := js_and w wall =? wall.

Definition inb (w h : Z) (c : Coordinate) : Prop := 0 ≤ x c < w ∧ 0 ≤ y c < h.

Global Instance inb_dec w h c : Decision (inb w h c).
Proof. unfold inb. apply _. Defined.

Definition vis (m : Maze) (c : Coordinate) : bool :=
  match cellAt m c with
  | Some cell => visited cell
  | None => false
  end.

(** Is the wall on side [s] of the cell at [c] standing?  Where there is
    no cell there is nothing to walk into. *)
Definition wallAt (m : Maze) (c : Coordinate) (s : Side) : bool :=
  match cellAt m c with
  | Some cell => hasWall (walls cell) (wallOf s)
  | None => true
  end.

(** ** Relations and measures used in the statements and proofs *)

(** Case analysis on a 4-bit mask [w] with [H : 0 ≤ w < 16]. *)
Ltac mask_cases w H :=
  let E := fresh "E" in
  assert (E : w = 0 ∨ w = 1 ∨ w = 2 ∨ w = 3 ∨ w = 4 ∨ w = 5 ∨ w = 6 ∨ w = 7 ∨
              w = 8 ∨ w = 9 ∨ w = 10 ∨ w = 11 ∨ w = 12 ∨ w = 13 ∨ w = 14 ∨ w = 15)
    by lia;
  clear H;
  repeat (destruct E as [E | E]; [subst w | ]); [.. | subst w].

(** The state an outcome ends in, when it has one. *)
Definition final {A : Type} (o : Outcome A) : option Run :=
  match o with
  | Ok _ r => Some r
  | Throw _ r => Some r
  | OutOfFuel => None
  end.

(** [o'] is [o] with possibly more fuel spent on it. *)
Definition refines {A : Type} (o o' : Outcome A) : Prop := o = OutOfFuel ∨ o = o'.

(** Invariance: [m] ends (returning or throwing) in a state that is
    related by [R] to the state it started in. *)
Definition respects (R : Run → Run → Prop) {A : Type} (m : M A) : Prop :=
  ∀ r, match final (m r) with Some r' => R r r' | None => True end.

(** What may change in a cell: [visited] may become true and wall bits
    may be cleared; nothing else. *)
Definition cellEvolves (a b : MazeCell) : Prop :=
  cell_x b = cell_x a ∧ cell_y b = cell_y a ∧
  adjacentCells b = adjacentCells a ∧
  (visited a = true → visited b = true) ∧
  (∀ i, Z.testbit (walls b) i = true → Z.testbit (walls a) i = true).

(** The grid keeps its dimensions and its cells, and every cell evolves. *)
Definition evolves (m m' : Maze) : Prop :=
  width m' = width m ∧ height m' = height m ∧
  ∀ c, match cellAt m c, cellAt m' c with
       | Some a, Some b => cellEvolves a b
       | None, None => True
       | _, _ => False
       end.

(** [ms] lists successive states, each related to the one before; the
    first is related to [m]. *)
Fixpoint chain (R : Maze → Maze → Prop) (m : Maze) (ms : list Maze) : Prop :=
  match ms with
  | [] => True
  | m' :: rest => R m m' ∧ chain R m' rest
  end.

(** Every wall mask is a 4-bit value. *)
Definition masks4 (m : Maze) : Prop :=
  ∀ c cell, cellAt m c = Some cell → 0 ≤ walls cell < 16.

(** The states a maze can be in between calls of its methods. *)
Inductive reachable : Maze → Prop :=
  | reachable_reset (m : Maze) : reachable (reset m)
  | reachable_generate (random : nat → nat) (fuel : nat) (coord : Coordinate)
      (m : Maze) (r' : Run) :
      reachable m →
      final (generate random fuel coord (startRun m)) = Some r' →
      reachable (maze r').

(** The relation between the states before and after a step: from a
    state with 4-bit masks, the log grows by states that each evolve from
    the one before, up to the state the step ends in. *)
Definition advances (r r' : Run) : Prop :=
  masks4 (maze r) →
  masks4 (maze r') ∧
  ∃ Δ, history r' = history r ++ Δ ∧
       chain evolves (maze r) (map after Δ ++ [maze r']).

(** The adjacency list [reset] builds for the cell at [c], in the order
    left, right, top, bottom. *)
Definition neighbours (w h : Z) (c : Coordinate) : list Coordinate :=
  (if decide (x c - 1 >= 0) then [towards c OnLeft] else []) ++
  (if decide (x c + 1 < w) then [towards c OnRight] else []) ++
  (if decide (y c - 1 >= 0) then [towards c OnTop] else []) ++
  (if decide (y c + 1 < h) then [towards c OnBottom] else []).

(** A grid has the frame of a [w] by [h] reset grid: the same cells with
    the same coordinates and adjacency lists. *)
Definition wellFormed (w h : Z) (m : Maze) : Prop :=
  width m = w ∧ height m = h ∧ masks4 m ∧
  ∀ c, inb w h c →
       ∃ cell, cellAt m c = Some cell ∧
               cell_x cell = x c ∧ cell_y cell = y c ∧
               adjacentCells cell = neighbours w h c.

(** The grid after [breakCellWalls] has run on the cell at [c] and its
    neighbour on side [s]. *)
Definition broken (c : Coordinate) (s : Side) (m : Maze) : Maze :=
  alterCell (clearWall (oppositeWall (wallOf s))) (towards c s)
            (alterCell (clearWall (wallOf s)) c m).

(** [(d, s')] names the same wall as [(c, s)], seen from either side. *)
Definition sameWall (c : Coordinate) (s : Side) (d : Coordinate) (s' : Side) : Prop :=
  (c = d ∧ s = s') ∨ (towards c s = d ∧ opp s = s').

(** [sameWall] is decidable. *)
Global Instance sameWall_dec c s d s' : Decision (sameWall c s d s').
Proof. unfold sameWall. apply _. Defined.

(** The number of elements of [l] that satisfy [p]. *)
Fixpoint tally {A : Type} (p : A → bool) (l : list A) : nat :=
  match l with
  | [] => 0%nat
  | a :: rest => ((if p a then 1 else 0) + tally p rest)%nat
  end.

(** Every position of a [w] by [h] grid, row by row. *)
Definition allCoords (w h : Z) : list Coordinate :=
  cy ← seqZ 0 h; (fun cx => {| x := cx; y := cy |}) <$> seqZ 0 w.

(** Wall symmetry: the two sides of every interior wall agree. *)
Definition symmetric (w h : Z) (m : Maze) : Prop :=
  ∀ c s, inb w h c → inb w h (towards c s) →
         wallAt m c s = wallAt m (towards c s) (opp s).

(** The wall between [c] and its neighbour on side [s] is broken: the bit
    is cleared in both cells. *)
Definition passage (m : Maze) (c : Coordinate) (s : Side) : bool :=
  negb (wallAt m c s) && negb (wallAt m (towards c s) (opp s)).

(** A path of broken walls from [a]. *)
Inductive reach (m : Maze) (a : Coordinate) : Coordinate → Prop :=
  | reach_here : reach m a a
  | reach_step (b : Coordinate) (s : Side) :
      reach m a b → passage m b s = true → reach m a (towards b s).

(** The number of visited cells. *)
Definition visitedCount (w h : Z) (m : Maze) : nat := tally (vis m) (allCoords w h).

(** Broken wall-pairs: every interior wall is the right wall or the
    bottom wall of exactly one cell. *)
Definition brokenPairs (w h : Z) (m : Maze) : nat :=
  (tally (fun c => passage m c OnRight) (allCoords w h) +
   tally (fun c => passage m c OnBottom) (allCoords w h))%nat.

(** Cells not yet visited still have their four walls. *)
Definition sealedExcept (w h : Z) (m : Maze) (skip : Coordinate → Prop) : Prop :=
  ∀ d s, inb w h d → ¬ skip d → vis m d = false → wallAt m d s = true.

(** The states that the primitive steps of [generate] lead to: after
    [enterFrame], [leaveFrame], a draw of [Math.random], the marking of
    the cell at [c], and [breakCellWalls] between [c] and its neighbour on
    side [s]. *)
Definition entered (r : Run) : Run :=
  {| maze := maze r; draws := draws r; frames := S (frames r);
     deepest := Nat.max (deepest r) (S (frames r)); history := history r |}.

Definition returned (r : Run) : Run :=
  {| maze := maze r; draws := draws r; frames := Nat.pred (frames r);
     deepest := deepest r; history := history r |}.

Definition drew (r : Run) : Run :=
  {| maze := maze r; draws := S (draws r); frames := frames r;
     deepest := deepest r; history := history r |}.

Definition marked (c : Coordinate) (r : Run) : Run :=
  {| maze := alterCell setVisited c (maze r); draws := draws r; frames := frames r;
     deepest := deepest r;
     history := history r ++
       [ {| op := OpVisit c; after := alterCell setVisited c (maze r) |} ] |}.

Definition brokeWall (c : Coordinate) (s : Side) (r : Run) : Run :=
  {| maze := broken c s (maze r); draws := draws r; frames := frames r;
     deepest := deepest r;
     history := history r ++
       [ {| op := OpBreak c (towards c s) (wallOf s); after := broken c s (maze r) |} ] |}.

(** The coordinates of [l] whose cell is not visited. *)
Definition unvisitedAmong (m : Maze) (l : list Coordinate) : list Coordinate :=
  filter (fun n => vis m n = false) l.

(** The invariant of every state of a generation. *)
Definition consistent (w h : Z) (m : Maze) : Prop :=
  wellFormed w h m ∧ symmetric w h m.

(** The empty set of positions. *)
Definition nowhere : Coordinate → Prop := fun _ => False.

(** What one call (with [k = 1]) or one run of the loop (with [k = 0])
    at [c] achieves, from the state [r] it starts in to the state [r']
    it ends in. *)
Record Grown (w h : Z) (k : nat) (c : Coordinate) (r r' : Run) : Prop := {
  grown_consistent : consistent w h (maze r');
  grown_sealed : sealedExcept w h (maze r') nowhere;
  grown_vis : ∀ d, vis (maze r) d = true → vis (maze r') d = true;
  grown_wall : ∀ d s, wallAt (maze r) d s = false → wallAt (maze r') d s = false;
  grown_new : ∀ d, inb w h d → vis (maze r') d = true → vis (maze r) d = false →
                   reach (maze r') c d ∧
                   ∀ s, inb w h (towards d s) → vis (maze r') (towards d s) = true;
  grown_pairs : (brokenPairs w h (maze r') + visitedCount w h (maze r) + k =
                 brokenPairs w h (maze r) + visitedCount w h (maze r'))%nat;
  grown_count : (visitedCount w h (maze r) + k ≤ visitedCount w h (maze r'))%nat;
  grown_frames : frames r' = frames r;
  grown_deepest : (deepest r' ≤ Nat.max (deepest r) (Z.to_nat w * Z.to_nat h))%nat;
  grown_history : ∃ Δ, history r' = history r ++ Δ ∧
                       Forall (fun s => consistent w h (after s)) Δ;
  grown_entered : (0 < k)%nat → vis (maze r') c = true
}.

(** Every neighbour of [c] inside the grid is visited. *)
Definition surrounded (w h : Z) (c : Coordinate) (r : Run) : Prop :=
  ∀ s, inb w h (towards c s) → vis (maze r) (towards c s) = true.

(** The random source that always yields 0, hence index 0. *)
Definition zeroes : nat → nat := fun _ => 0%nat.

(** A reset maze of two cells side by side. *)
Definition twoCells : Run := startRun (reset (newMaze 2 1)).

(** The mask with the given walls, built the way [reset] builds the full
    one: an [|] of the bits. *)
Definition maskOf (top right bottom left : bool) : Z :=
  js_or (js_or (js_or (if top then WALL_TOP else 0) (if right then WALL_RIGHT else 0))
               (if bottom then WALL_BOTTOM else 0))
        (if left then WALL_LEFT else 0).

(** A call of one of the two methods.  A [generate] that throws leaves
    the maze as it was at the throw; one that does not return within its
    fuel is followed by nothing. *)
Inductive Call : Type :=
  | CallReset
  | CallGenerate (random : nat → nat) (fuel : nat) (start : Coordinate).

(** The maze after one call, when the call ends. *)
Definition perform (call : Call) (m : Maze) : option Maze :=
  match call with
  | CallReset => Some (reset m)
  | CallGenerate random fuel start =>
      maze <$> final (generate random fuel start (startRun m))
  end.

(** The maze after a sequence of calls. *)
Fixpoint performAll (calls : list Call) (m : Maze) : option Maze :=
  match calls with
  | [] => Some m
  | call :: rest =>
      match perform call m with
      | Some m' => performAll rest m'
      | None => None
      end
  end.

(** A reset, a generation, and a generation from outside the grid. *)
Definition exampleCalls : list Call :=
  [CallReset; CallGenerate zeroes 7 (Coord 0 0); CallGenerate zeroes 7 (Coord 5 5)].

(** The maze these three calls leave behind. *)
Definition exampleMaze : Maze :=
  default (newMaze 2 2) (performAll exampleCalls (newMaze 2 2)).

(** The error an outcome throws, when it throws. *)
Definition thrown {A : Type} (o : Outcome A) : option JsError :=
  match o with
  | Throw e _ => Some e
  | _ => None
  end.

(** [maze.js] has no accessor function for the wall mask.  The one place
    that reads a mask is [draw] (line 235), with the expression
    [this.cells[y][x].walls]; this is that expression at [coord]. *)
Definition cellWalls (coord : Coordinate) : M Z :=
  let* cell := getCell coord in
  let* c := deref cell in
  ret (walls c).

(** The run of [generate({x: 0, y: 0})] on a reset 2 by 2 maze with the
    random source [zeroes]. *)
Definition generated : Run :=
  match generate zeroes 7 (Coord 0 0) (startRun (reset (newMaze 2 2))) with
  | Ok _ r => r
  | _ => startRun (newMaze 2 2)
  end.

(** ** Walks through broken walls *)

(** From [c], each side of [sides] in turn leads through a broken wall. *)
Fixpoint walk (m : Maze) (c : Coordinate) (sides : list Side) : Prop :=
  match sides with
  | [] => True
  | s :: rest => passage m c s = true ∧ walk m (towards c s) rest
  end.

(** The positions a walk from [c] comes to, one per step. *)
Fixpoint visits (c : Coordinate) (sides : list Side) : list Coordinate :=
  match sides with
  | [] => []
  | s :: rest => towards c s :: visits (towards c s) rest
  end.

(** The positions a walk from [c] passes through: all it comes to except
    the last. *)
Fixpoint interior (c : Coordinate) (sides : list Side) : list Coordinate :=
  match sides with
  | s :: (_ :: _) as rest => towards c s :: interior (towards c s) rest
  | _ => []
  end.

(** Where a walk from [c] ends. *)
Definition endpoint (c : Coordinate) (sides : list Side) : Coordinate :=
  fold_left towards sides c.

(** No step goes straight back through the wall the step before came
    through. *)
Fixpoint reduced (sides : list Side) : Prop :=
  match sides with
  | a :: rest =>
      match rest with
      | b :: _ => b ≠ opp a
      | [] => True
      end ∧ reduced rest
  | [] => True
  end.

(** A cycle of broken walls: a walk of at least one step that never
    turns straight back and ends where it began. *)
Definition cycle (m : Maze) (c : Coordinate) (sides : list Side) : Prop :=
  sides ≠ [] ∧ walk m c sides ∧ endpoint c sides = c ∧ reduced sides.

Definition acyclic (m : Maze) : Prop := ∀ c sides, ¬ cycle m c sides.


(** ** [Maze.prototype.draw] (lines 223-256) *)

(** What [draw] does to the 2D context of the canvas: it sets
    [fillStyle] and calls [fillRect(x, y, width, height)]. *)
Inductive CanvasOp : Type :=
  | SetFillStyle (color : string)
  | FillRect (left top rectWidth rectHeight : Z).

Definition THICKNESS : Z := 4.

(** The body of the inner loop for the cell in column [cx] of row [cy]
    with the wall mask [wl] (lines 235-252). *)
Definition drawCell (wallSize cx cy wl : Z) : list CanvasOp :=
  (if hasWall wl WALL_TOP
   then [FillRect (cx * wallSize) (cy * wallSize) wallSize THICKNESS] else []) ++
  (if hasWall wl WALL_RIGHT
   then [FillRect ((cx + 1) * wallSize) (cy * wallSize) THICKNESS wallSize] else []) ++
  (if hasWall wl WALL_BOTTOM
   then [FillRect (cx * wallSize) ((cy + 1) * wallSize) wallSize THICKNESS] else []) ++
  (if hasWall wl WALL_LEFT
   then [FillRect (cx * wallSize) (cy * wallSize) THICKNESS wallSize] else []).

(** The two loops, over the positions they go through in order; reading
    [this.cells[y][x].walls] where there is no cell throws, and what was
    drawn before stays drawn. *)
Fixpoint drawCells (m : Maze) (wallSize : Z) (coords : list Coordinate)
    : list CanvasOp * option JsError :=
  match coords with
  | [] => ([], None)
  | c :: rest =>
      match cellAt m c with
      | None => ([], Some TypeError)
      | Some cell =>
          let '(ops, e) := drawCells m wallSize rest in
          (drawCell wallSize (x c) (y c) (walls cell) ++ ops, e)
      end
  end.

(** [draw(canvasId, wallSize, color)]: the operations performed on the
    context, and the error thrown if any.  [document canvasId] tells
    whether [document.getElementById(canvasId)] is a canvas; on [null]
    the call [canvas.getContext] throws. *)
Definition draw (document : string → bool) (m : Maze)
    (canvasId : string) (wallSize : Z) (color : string)
    : list CanvasOp * option JsError :=
  if document canvasId
  then let '(ops, e) := drawCells m wallSize (allCoords (width m) (height m)) in
       (SetFillStyle color :: ops, e)
  else ([], Some TypeError).

(** The rectangle [draw] fills for the wall on side [s] of the cell at
    [c]. *)
Definition wallRect (wallSize : Z) (c : Coordinate) (s : Side) : CanvasOp :=
  match s with
  | OnTop => FillRect (x c * wallSize) (y c * wallSize) wallSize THICKNESS
  | OnRight => FillRect ((x c + 1) * wallSize) (y c * wallSize) THICKNESS wallSize
  | OnBottom => FillRect (x c * wallSize) ((y c + 1) * wallSize) wallSize THICKNESS
  | OnLeft => FillRect (x c * wallSize) (y c * wallSize) THICKNESS wallSize
  end.

(** The number of standing walls, counted per cell and side. *)
Definition standing (w h : Z) (m : Maze) : nat :=
  (tally (fun c => wallAt m c OnTop) (allCoords w h) +
   tally (fun c => wallAt m c OnRight) (allCoords w h) +
   tally (fun c => wallAt m c OnBottom) (allCoords w h) +
   tally (fun c => wallAt m c OnLeft) (allCoords w h))%nat.

(** A page on which every canvas asked for exists. *)
Definition anyCanvas : string → bool := fun _ => true.

(** * Properties *)

(** ** Bit-level facts *)

Lemma wall_values :
  WALL_TOP = 8 ∧ WALL_RIGHT = 4 ∧ WALL_BOTTOM = 2 ∧ WALL_LEFT = 1.
Proof. repeat split; reflexivity. Qed.

Lemma wallOf_pow (s : Side) : wallOf s = 2 ^ bitOf s.
Proof. destruct s; reflexivity. Qed.

Lemma oppositeWall_wallOf (s : Side) : oppositeWall (wallOf s) = wallOf (opp s).
Proof. destruct s; reflexivity. Qed.

Lemma opp_opp (s : Side) : opp (opp s) = s.
Proof. destruct s; reflexivity. Qed.

Lemma towards_back (c : Coordinate) (s : Side) : towards (towards c s) (opp s) = c.
Proof. destruct c as [i j], s; simpl; f_equal; lia. Qed.

Lemma towards_ne (c : Coordinate) (s : Side) : towards c s ≠ c.
Proof. destruct c as [i j], s; simpl; intros [=]; lia. Qed.

Lemma towards_inj (c d : Coordinate) (s : Side) : towards c s = towards d s → c = d.
Proof. destruct c, d, s; simpl; intros [=]; f_equal; lia. Qed.

Lemma toInt32_id (z : Z) : - 2 ^ 31 ≤ z < 2 ^ 31 → toInt32 z = z.
Proof.
  intros Hz. unfold toInt32.
  rewrite Z.mod_small by lia. lia.
Qed.

Lemma clear_range (w : Z) (s : Side) :
  0 ≤ w < 16 → 0 ≤ js_and w (js_not (wallOf s)) < 16.
Proof.
  intros H. mask_cases w H; destruct s; vm_compute; split; congruence.
Qed.

Lemma hasWall_clear (w : Z) (s s' : Side) :
  0 ≤ w < 16 →
  hasWall (js_and w (js_not (wallOf s))) (wallOf s') =
  hasWall w (wallOf s') && negb (bool_decide (s = s')).
Proof.
  intros H. mask_cases w H; destruct s, s'; reflexivity.
Qed.

Lemma hasWall_full (s : Side) : hasWall 15 (wallOf s) = true.
Proof. destruct s; reflexivity. Qed.

(** ** The grid as a store *)

Lemma coord_eq (c d : Coordinate) : c = d ↔ x c = x d ∧ y c = y d.
Proof. destruct c, d; simpl; split; [intros [=] | intros [-> ->]]; auto. Qed.

Lemma index_alterAt {A : Type} (f : A → A) (i j : Z) (l : list A) :
  index (alterAt f i l) j = if decide (i = j) then f <$> index l j else index l j.
Proof.
  unfold index, alterAt.
  destruct (decide (0 ≤ j)) as [Hj | Hj].
  - destruct (decide (0 ≤ i)) as [Hi | Hi].
    + destruct (decide (i = j)) as [-> | Hne].
      * apply list_lookup_alter_eq.
      * apply list_lookup_alter_ne. lia.
    + destruct (decide (i = j)); [lia | done].
  - destruct (decide (i = j)); done.
Qed.

Lemma cellAt_alterCell (f : MazeCell → MazeCell) (p c : Coordinate) (m : Maze) :
  cellAt (alterCell f p m) c = if decide (p = c) then f <$> cellAt m c else cellAt m c.
Proof.
  unfold cellAt, alterCell; simpl.
  destruct (cells m) as [cs | ]; simpl; [ | by destruct (decide (p = c))].
  rewrite index_alterAt.
  destruct (decide (y p = y c)) as [Hy | Hy].
  - destruct (index cs (y c)) as [row | ]; simpl.
    + rewrite index_alterAt.
      destruct (decide (x p = x c)) as [Hx | Hx].
      * rewrite decide_True by (apply coord_eq; done). done.
      * rewrite decide_False by (rewrite coord_eq; tauto). done.
    + by destruct (decide (p = c)).
  - rewrite decide_False by (rewrite coord_eq; tauto). done.
Qed.

Lemma cellAt_alterCell_same f p m cell :
  cellAt m p = Some cell → cellAt (alterCell f p m) p = Some (f cell).
Proof. intros H. rewrite cellAt_alterCell, decide_True, H; done. Qed.

Lemma cellAt_alterCell_other f p c m :
  p ≠ c → cellAt (alterCell f p m) c = cellAt m c.
Proof. intros H. rewrite cellAt_alterCell, decide_False; done. Qed.

Lemma cellAt_reset (m : Maze) (c : Coordinate) :
  cellAt (reset m) c =
  if decide (inb (width m) (height m) c) then Some (resetCell m (x c) (y c)) else None.
Proof.
  unfold cellAt, reset, resetRow, index, inb; simpl.
  destruct (decide (0 ≤ y c)) as [Hy | Hy].
  - rewrite list_lookup_fmap.
    destruct (decide (y c < height m)) as [Hy' | Hy'].
    + rewrite lookup_seqZ_lt by lia. simpl.
      destruct (decide (0 ≤ x c)) as [Hx | Hx].
      * rewrite list_lookup_fmap.
        destruct (decide (x c < width m)) as [Hx' | Hx'].
        -- rewrite lookup_seqZ_lt by lia. simpl.
           rewrite decide_True by lia. do 2 f_equal; lia.
        -- rewrite lookup_seqZ_ge by lia. simpl.
           rewrite decide_False by lia. done.
      * rewrite decide_False by lia. done.
    + rewrite lookup_seqZ_ge by lia. simpl.
      rewrite decide_False by lia. done.
  - rewrite decide_False by lia. done.
Qed.

(** ** Reasoning about monadic code *)

Lemma bind_Ok {A B : Type} (m : M A) (k : A → M B) r a r1 :
  m r = Ok a r1 → bind m k r = k a r1.
Proof. unfold bind. by intros ->. Qed.

Lemma bind_Throw {A B : Type} (m : M A) (k : A → M B) r e r1 :
  m r = Throw e r1 → bind m k r = Throw e r1.
Proof. unfold bind. by intros ->. Qed.

Lemma refines_refl {A : Type} (o : Outcome A) : refines o o.
Proof. by right. Qed.

Lemma refines_bind {A B : Type} (m m' : M A) (k k' : A → M B) r :
  refines (m r) (m' r) →
  (∀ a r1, refines (k a r1) (k' a r1)) →
  refines (bind m k r) (bind m' k' r).
Proof.
  intros [Hm | Hm] Hk; unfold bind; rewrite Hm.
  - by left.
  - destruct (m' r); [apply Hk | by right | by right].
Qed.

Lemma generate_more_fuel (random : nat → nat) (fuel : nat) :
  (∀ coord r, refines (generate random fuel coord r) (generate random (S fuel) coord r)) ∧
  (∀ coord current adjacents r,
      refines (generate_while random fuel coord current adjacents r)
              (generate_while random (S fuel) coord current adjacents r)).
Proof.
  induction fuel as [ | fuel [IHg IHw]].
  - split; [by left | ].
    intros coord current [ | a adjacents] r; [by right | by left].
  - split.
    + intros coord r.
      change (generate random (S fuel) coord) with
        (enterFrame ;; let* current := getCell coord in markVisited current ;;
         let* adjacents := getUnvisitedAdjacents current in
         generate_while random fuel coord current adjacents ;; leaveFrame).
      change (generate random (S (S fuel)) coord) with
        (enterFrame ;; let* current := getCell coord in markVisited current ;;
         let* adjacents := getUnvisitedAdjacents current in
         generate_while random (S fuel) coord current adjacents ;; leaveFrame).
      repeat (apply refines_bind; [try apply refines_refl | intros; try apply refines_refl]).
      apply IHw.
    + intros coord current [ | a adjacents] r; [by right | ].
      cbn [generate_while].
      repeat (apply refines_bind; [try apply refines_refl | intros; try apply refines_refl]).
      * apply IHg.
      * apply IHw.
Qed.

Lemma generate_fuel_le (random : nat → nat) (fuel fuel' : nat) coord r :
  (fuel ≤ fuel')%nat →
  generate random fuel coord r ≠ OutOfFuel →
  generate random fuel' coord r = generate random fuel coord r.
Proof.
  induction 1 as [ | fuel' Hle IH]; [done | ].
  intros Hne. specialize (IH Hne).
  destruct (proj1 (generate_more_fuel random fuel') coord r) as [E | E]; congruence.
Qed.

(** Invariance: a relation between the state before and the state after
    that every primitive step respects is respected by [generate]. *)
Section Respects.

Variable R : Run → Run → Prop.
Hypothesis R_refl : ∀ r, R r r.
Hypothesis R_trans : ∀ a b c, R a b → R b c → R a c.

Lemma respects_ret {A : Type} (a : A) : respects R (ret a).
Proof. intros r. apply R_refl. Qed.

Lemma respects_throw {A : Type} e : respects R (@throw A e).
Proof. intros r. apply R_refl. Qed.

Lemma respects_timeout {A : Type} : respects R (@timeout A).
Proof. by intros r. Qed.

Lemma respects_bind {A B : Type} (m : M A) (k : A → M B) :
  respects R m → (∀ a, respects R (k a)) → respects R (bind m k).
Proof.
  intros Hm Hk r. specialize (Hm r). unfold bind.
  destruct (m r) as [a r1 | e r1 | ]; simpl in *; [ | done | done].
  specialize (Hk a r1). destruct (final (k a r1)); [ | done].
  by apply R_trans with r1.
Qed.

Lemma respects_getCell coord : respects R (getCell coord).
Proof.
  intros r. unfold getCell.
  destruct (cells (maze r)) as [cs | ]; [ | apply R_refl].
  destruct (index cs (y coord)) as [row | ]; [ | apply R_refl].
  destruct (index row (x coord)); apply R_refl.
Qed.

Lemma respects_deref ref : respects R (deref ref).
Proof.
  intros r. unfold deref.
  destruct ref as [p | ]; [ | apply R_refl].
  destruct (cellAt (maze r) p); apply R_refl.
Qed.

Lemma respects_unvisitedOf adjacent : respects R (unvisitedOf adjacent).
Proof.
  induction adjacent as [ | coord rest IH]; simpl; [apply respects_ret | ].
  apply respects_bind; [apply respects_getCell | intros cellRef].
  apply respects_bind; [apply respects_deref | intros cell].
  apply respects_bind; [apply IH | intros unvisited].
  apply respects_ret.
Qed.

Lemma respects_getUnvisitedAdjacents this : respects R (getUnvisitedAdjacents this).
Proof.
  apply respects_bind; [apply respects_deref | intros self].
  apply respects_unvisitedOf.
Qed.

Variable random : nat → nat.
Hypothesis R_enter : respects R enterFrame.
Hypothesis R_leave : respects R leaveFrame.
Hypothesis R_random : ∀ n, respects R (randomIndex random n).
Hypothesis R_visit : ∀ current, respects R (markVisited current).
Hypothesis R_break : ∀ a b s, respects R (breakCellWalls a b (wallOf s)).

Lemma respects_generate (fuel : nat) :
  (∀ coord, respects R (generate random fuel coord)) ∧
  (∀ coord current adjacents,
      respects R (generate_while random fuel coord current adjacents)).
Proof.
  induction fuel as [ | fuel [IHg IHw]].
  - split; [intros; apply respects_timeout | ].
    intros coord current [ | a adjacents]; [apply respects_ret | apply respects_timeout].
  - split.
    + intros coord.
      change (generate random (S fuel) coord) with
        (enterFrame ;; let* current := getCell coord in markVisited current ;;
         let* adjacents := getUnvisitedAdjacents current in
         generate_while random fuel coord current adjacents ;; leaveFrame).
      apply respects_bind; [apply R_enter | intros _].
      apply respects_bind; [apply respects_getCell | intros current].
      apply respects_bind; [apply R_visit | intros _].
      apply respects_bind; [apply respects_getUnvisitedAdjacents | intros adjacents].
      apply respects_bind; [apply IHw | intros _; apply R_leave].
    + intros coord current [ | a adjacents]; [apply respects_ret | ].
      cbn [generate_while].
      apply respects_bind; [apply R_random | intros i].
      apply respects_bind; [ | intros next].
      { unfold element. destruct (_ !! i); [apply respects_ret | apply respects_throw]. }
      apply respects_bind; [apply respects_getCell | intros nextNode].
      apply respects_bind; [ | intros _].
      { destruct (decide (x next > x coord)); [apply (R_break _ _ OnRight) | ].
        destruct (decide (x next < x coord)); [apply (R_break _ _ OnLeft) | ].
        apply respects_ret. }
      apply respects_bind; [ | intros _].
      { destruct (decide (y next > y coord)); [apply (R_break _ _ OnBottom) | ].
        destruct (decide (y next < y coord)); [apply (R_break _ _ OnTop) | ].
        apply respects_ret. }
      apply respects_bind; [apply IHg | intros _].
      apply respects_bind; [apply respects_getUnvisitedAdjacents | intros adjacents'].
      apply IHw.
Qed.

End Respects.

(** ** Generation only removes structure *)

Lemma cellEvolves_refl a : cellEvolves a a.
Proof. repeat split; auto. Qed.

Lemma cellEvolves_trans a b c : cellEvolves a b → cellEvolves b c → cellEvolves a c.
Proof.
  intros (? & ? & ? & ? & ?) (? & ? & ? & ? & ?).
  repeat split; try congruence; auto.
Qed.

Lemma evolves_refl m : evolves m m.
Proof.
  repeat split. intros c. destruct (cellAt m c); [apply cellEvolves_refl | done].
Qed.

Lemma evolves_trans m1 m2 m3 : evolves m1 m2 → evolves m2 m3 → evolves m1 m3.
Proof.
  intros (Hw1 & Hh1 & H1) (Hw2 & Hh2 & H2).
  split; [congruence | split; [congruence | ]].
  intros c. specialize (H1 c). specialize (H2 c).
  destruct (cellAt m1 c), (cellAt m2 c), (cellAt m3 c); try done.
  by apply cellEvolves_trans with m0.
Qed.

Lemma chain_join (R : Maze → Maze → Prop) m0 l1 m1 l2 :
  (∀ a b c, R a b → R b c → R a c) →
  chain R m0 (l1 ++ [m1]) → chain R m1 l2 → chain R m0 (l1 ++ l2).
Proof.
  intros Htrans. revert m0.
  induction l1 as [ | a l1 IH]; simpl; intros m0.
  - intros [H01 _]. destruct l2 as [ | b l2]; simpl; [done | ].
    intros [H1b Hrest]. split; [by apply Htrans with m1 | done].
  - intros [H0a Hrest] H2. split; [done | by apply IH].
Qed.

Lemma evolves_alterCell f p m :
  (∀ cell, cellAt m p = Some cell → cellEvolves cell (f cell)) →
  evolves m (alterCell f p m).
Proof.
  intros Hf. repeat split. intros c.
  rewrite cellAt_alterCell.
  destruct (decide (p = c)) as [-> | Hne].
  - destruct (cellAt m c) as [cell | ] eqn:E; simpl; [by apply Hf | done].
  - destruct (cellAt m c); [apply cellEvolves_refl | done].
Qed.

Lemma masks4_alterCell f p m :
  (∀ cell, 0 ≤ walls cell < 16 → 0 ≤ walls (f cell) < 16) →
  masks4 m → masks4 (alterCell f p m).
Proof.
  intros Hf Hm c cell. rewrite cellAt_alterCell.
  destruct (decide (p = c)) as [-> | Hne]; [ | exact (Hm c cell)].
  destruct (cellAt m c) as [cell0 | ] eqn:E; simpl; [ | done].
  intros [= <-]. apply Hf. by apply (Hm c).
Qed.

Lemma land_subset (b a : Z) :
  Z.land b a = b → ∀ i, Z.testbit b i = true → Z.testbit a i = true.
Proof.
  intros H i Hb. rewrite <- H, Z.land_spec in Hb.
  by apply andb_true_iff in Hb as [_ ?].
Qed.

Lemma clearWall_evolves (s : Side) (cell : MazeCell) :
  0 ≤ walls cell < 16 → cellEvolves cell (clearWall (wallOf s) cell).
Proof.
  intros H. repeat split; auto. simpl.
  apply land_subset.
  destruct cell as [cx cy w adj v]; simpl in *.
  mask_cases w H; destruct s; reflexivity.
Qed.

Lemma resetCell_walls m cx cy : walls (resetCell m cx cy) = 15.
Proof.
  unfold resetCell. repeat case_decide; reflexivity.
Qed.

Lemma masks4_reset m : masks4 (reset m).
Proof.
  intros c cell. rewrite cellAt_reset. case_decide; [ | done].
  intros [= <-]. rewrite resetCell_walls. lia.
Qed.

Lemma advances_refl r : advances r r.
Proof.
  intros H. split; [done | ]. exists []. rewrite app_nil_r. simpl.
  split; [done | ]. split; [apply evolves_refl | done].
Qed.

Lemma advances_trans a b c : advances a b → advances b c → advances a c.
Proof.
  intros Hab Hbc Ha.
  destruct (Hab Ha) as (Hb & Δ1 & E1 & C1).
  destruct (Hbc Hb) as (Hc & Δ2 & E2 & C2).
  split; [done | ]. exists (Δ1 ++ Δ2). split.
  - rewrite E2, E1. by rewrite app_assoc.
  - rewrite map_app, <- app_assoc.
    eapply chain_join; eauto using evolves_trans.
Qed.

Lemma advances_quiet r r' :
  maze r' = maze r → history r' = history r → advances r r'.
Proof.
  intros Em Eh H. split; [by rewrite Em | ].
  exists []. rewrite app_nil_r, Em. simpl. auto using evolves_refl.
Qed.

Lemma advances_update f r :
  (masks4 (maze r) → masks4 (f (maze r)) ∧ evolves (maze r) (f (maze r))) →
  match final (update f r) with Some r' => advances r r' | None => True end.
Proof.
  intros Hf. simpl. intros H. destruct (Hf H) as [H4 Hev].
  split; [done | ]. exists []. rewrite app_nil_r. simpl. auto.
Qed.

Lemma advances_markVisited current : respects advances (markVisited current).
Proof.
  intros r. destruct current as [p | ]; simpl; [ | apply advances_refl].
  intros H. split.
  - by apply masks4_alterCell.
  - eexists [_]. split; [done | ]. simpl.
    split; [ | auto using evolves_refl].
    apply evolves_alterCell. intros cell _. repeat split; auto.
Qed.

Lemma clearWall_step (s : Side) (p : Ref) (m : Maze) :
  masks4 m →
  masks4 (alterCell (clearWall (wallOf s)) p m) ∧
  evolves m (alterCell (clearWall (wallOf s)) p m).
Proof.
  intros H. split.
  - apply masks4_alterCell; [ | done]. intros cell. simpl. apply clear_range.
  - apply evolves_alterCell. intros cell Hc. apply clearWall_evolves. by apply (H p).
Qed.

Lemma advances_breakCellWalls a b s : respects advances (breakCellWalls a b (wallOf s)).
Proof.
  destruct a as [a | ]; [ | apply respects_throw, advances_refl].
  apply respects_bind; [apply advances_trans | | intros _].
  { intros r. apply advances_update. apply clearWall_step. }
  destruct b as [b | ]; [ | apply respects_throw, advances_refl].
  apply respects_bind; [apply advances_trans | | intros _].
  { intros r. apply advances_update. rewrite oppositeWall_wallOf. apply clearWall_step. }
  intros r. simpl. intros H. split; [done | ].
  eexists [_]. split; [done | ]. simpl. auto using evolves_refl.
Qed.

Lemma advances_generate random fuel coord :
  respects advances (generate random fuel coord).
Proof.
  apply respects_generate.
  - apply advances_refl.
  - apply advances_trans.
  - intros r. by apply advances_quiet.
  - intros r. by apply advances_quiet.
  - intros n r. by apply advances_quiet.
  - apply advances_markVisited.
  - apply advances_breakCellWalls.
Qed.

Lemma reachable_masks4 m : reachable m → masks4 m.
Proof.
  induction 1 as [m | random fuel coord m r' _ IH Hfin]; [apply masks4_reset | ].
  pose proof (advances_generate random fuel coord (startRun m)) as H.
  rewrite Hfin in H. by apply H.
Qed.

(** ** Well-formed grids *)

Lemma resetCell_adjacentCells m c :
  adjacentCells (resetCell m (x c) (y c)) = neighbours (width m) (height m) c.
Proof.
  unfold resetCell, neighbours.
  repeat case_decide; reflexivity.
Qed.

Lemma resetCell_fields m cx cy :
  cell_x (resetCell m cx cy) = cx ∧ cell_y (resetCell m cx cy) = cy ∧
  visited (resetCell m cx cy) = false.
Proof. unfold resetCell. repeat case_decide; auto. Qed.

Lemma elem_of_neighbours w h c n :
  inb w h c →
  n ∈ neighbours w h c ↔ (∃ s, n = towards c s) ∧ inb w h n.
Proof.
  intros [Hx Hy]. unfold neighbours. rewrite !elem_of_app. split.
  - intros [H | [H | [H | H]]]; case_decide; try (by apply elem_of_nil in H);
      apply list_elem_of_singleton in H; subst n;
      (split; [by eexists | unfold inb; simpl; lia]).
  - intros [[s ->] [Hx' Hy']]. destruct s; simpl in *.
    + do 2 right. left. rewrite decide_True by lia. by apply list_elem_of_singleton.
    + right. left. rewrite decide_True by lia. by apply list_elem_of_singleton.
    + do 3 right. rewrite decide_True by lia. by apply list_elem_of_singleton.
    + left. rewrite decide_True by lia. by apply list_elem_of_singleton.
Qed.

Lemma wellFormed_reset m : wellFormed (width m) (height m) (reset m).
Proof.
  split; [done | split; [done | split; [apply masks4_reset | ]]].
  intros c Hc. exists (resetCell m (x c) (y c)).
  rewrite cellAt_reset, decide_True by done.
  destruct (resetCell_fields m (x c) (y c)) as (? & ? & _).
  by rewrite resetCell_adjacentCells.
Qed.

Lemma wellFormed_alterCell w h f p m :
  (∀ cell, cell_x (f cell) = cell_x cell ∧ cell_y (f cell) = cell_y cell ∧
           adjacentCells (f cell) = adjacentCells cell ∧
           (0 ≤ walls cell < 16 → 0 ≤ walls (f cell) < 16)) →
  wellFormed w h m → wellFormed w h (alterCell f p m).
Proof.
  intros Hf (Hw & Hh & H4 & Hcells).
  split; [done | split; [done | split]].
  - apply masks4_alterCell; [ | done]. intros cell. apply Hf.
  - intros c Hc. destruct (Hcells c Hc) as (cell & E & Ex & Ey & Eadj).
    rewrite cellAt_alterCell, E.
    destruct (decide (p = c)); simpl; [ | by eauto].
    exists (f cell). destruct (Hf cell) as (-> & -> & -> & _). done.
Qed.

Lemma wellFormed_visit w h p m :
  wellFormed w h m → wellFormed w h (alterCell setVisited p m).
Proof. apply wellFormed_alterCell. intros cell. simpl. auto. Qed.

Lemma wellFormed_clear w h s p m :
  wellFormed w h m → wellFormed w h (alterCell (clearWall (wallOf s)) p m).
Proof.
  apply wellFormed_alterCell. intros cell. simpl.
  split; [done | split; [done | split; [done | apply clear_range]]].
Qed.

(** *** How the two mutations read through [vis] and [wallAt] *)

Lemma vis_visit p m c :
  is_Some (cellAt m p) →
  vis (alterCell setVisited p m) c = bool_decide (p = c) || vis m c.
Proof.
  intros [cell E]. unfold vis. rewrite cellAt_alterCell.
  destruct (decide (p = c)) as [<- | Hne].
  - rewrite E, bool_decide_eq_true_2 by done. done.
  - rewrite bool_decide_eq_false_2 by done. done.
Qed.

Lemma wallAt_visit p m c s : wallAt (alterCell setVisited p m) c s = wallAt m c s.
Proof.
  unfold wallAt. rewrite cellAt_alterCell.
  destruct (decide (p = c)); [ | done]. by destruct (cellAt m c).
Qed.

Lemma vis_clear wall p m c : vis (alterCell (clearWall wall) p m) c = vis m c.
Proof.
  unfold vis. rewrite cellAt_alterCell.
  destruct (decide (p = c)); [ | done]. by destruct (cellAt m c).
Qed.

Lemma wallAt_clear s p m c s' :
  masks4 m → is_Some (cellAt m p) →
  wallAt (alterCell (clearWall (wallOf s)) p m) c s' =
  wallAt m c s' && negb (bool_decide (p = c ∧ s = s')).
Proof.
  intros H4 [cell E]. unfold wallAt. rewrite cellAt_alterCell.
  destruct (decide (p = c)) as [<- | Hne].
  - rewrite E. simpl. rewrite hasWall_clear by (by apply (H4 p)).
    f_equal. f_equal. apply bool_decide_ext. tauto.
  - rewrite bool_decide_eq_false_2 by tauto.
    by rewrite andb_true_r.
Qed.

Lemma sameWall_flip c s d s' :
  sameWall c s (towards d s') (opp s') ↔ sameWall c s d s'.
Proof.
  unfold sameWall. split.
  - intros [[-> ->] | [E1 E2]].
    + right. by rewrite towards_back, opp_opp.
    + left. assert (s = s') as -> by (destruct s, s'; done || discriminate).
      split; [by apply towards_inj in E1 | done].
  - intros [[-> ->] | [<- <-]].
    + by right.
    + left. by rewrite towards_back, opp_opp.
Qed.

Lemma vis_broken c s m d : vis (broken c s m) d = vis m d.
Proof. unfold broken. by rewrite !vis_clear. Qed.

Lemma wallAt_broken w h c s m d s' :
  wellFormed w h m → inb w h c → inb w h (towards c s) →
  wallAt (broken c s m) d s' = wallAt m d s' && negb (bool_decide (sameWall c s d s')).
Proof.
  intros Hwf Hc Hn. unfold broken. rewrite oppositeWall_wallOf.
  pose proof Hwf as (_ & _ & H4 & Hcells).
  destruct (Hcells c Hc) as (cellc & Ec & _).
  destruct (Hcells _ Hn) as (celln & En & _).
  rewrite wallAt_clear.
  - rewrite wallAt_clear by eauto.
    rewrite <- andb_assoc. f_equal. rewrite <- negb_orb. f_equal.
    unfold sameWall.
    destruct (decide (c = d ∧ s = s')), (decide (towards c s = d ∧ opp s = s')).
    all: repeat first [rewrite bool_decide_eq_true_2 by tauto
                      | rewrite bool_decide_eq_false_2 by tauto]; done.
  - apply masks4_alterCell; [ | done]. intros cell. simpl. apply clear_range.
  - rewrite cellAt_alterCell, En. destruct (decide (c = towards c s)); eauto.
Qed.

Lemma wellFormed_broken w h c s m : wellFormed w h m → wellFormed w h (broken c s m).
Proof.
  intros H. unfold broken. rewrite oppositeWall_wallOf.
  by do 2 apply wellFormed_clear.
Qed.

(** ** Counting over the grid *)

Lemma tally_ext {A : Type} (p q : A → bool) (l : list A) :
  (∀ a, a ∈ l → p a = q a) → tally p l = tally q l.
Proof.
  induction l as [ | a l IH]; simpl; intros H; [done | ].
  rewrite (H a) by apply list_elem_of_here.
  rewrite IH; [done | ]. intros b Hb. apply H. by apply list_elem_of_further.
Qed.

Lemma tally_le_length {A : Type} (p : A → bool) (l : list A) :
  (tally p l ≤ length l)%nat.
Proof. induction l as [ | a l IH]; simpl; [lia | destruct (p a); lia]. Qed.

Lemma tally_mono {A : Type} (p q : A → bool) (l : list A) :
  (∀ a, a ∈ l → p a = true → q a = true) → (tally p l ≤ tally q l)%nat.
Proof.
  induction l as [ | a l IH]; simpl; intros H; [lia | ].
  assert (tally p l ≤ tally q l)%nat as Hle.
  { apply IH. intros b Hb. apply H. by apply list_elem_of_further. }
  pose proof (H a (list_elem_of_here _ _)) as Ha.
  destruct (p a), (q a); lia.
Qed.

Lemma tally_all {A : Type} (p : A → bool) (l : list A) :
  (∀ a, a ∈ l → p a = true) → tally p l = length l.
Proof.
  induction l as [ | a l IH]; simpl; intros H; [done | ].
  rewrite (H a) by apply list_elem_of_here.
  rewrite IH; [done | ]. intros b Hb. apply H. by apply list_elem_of_further.
Qed.

Lemma tally_none {A : Type} (p : A → bool) (l : list A) :
  (∀ a, a ∈ l → p a = false) → tally p l = 0%nat.
Proof.
  induction l as [ | a l IH]; simpl; intros H; [done | ].
  rewrite (H a) by apply list_elem_of_here.
  rewrite IH; [done | ]. intros b Hb. apply H. by apply list_elem_of_further.
Qed.

(** Turning the predicate on at one element of a duplicate-free list adds
    one. *)
Lemma tally_flip {A : Type} (p q : A → bool) (l : list A) (e : A) :
  NoDup l → e ∈ l → p e = false → q e = true →
  (∀ a, a ∈ l → a ≠ e → q a = p a) →
  tally q l = S (tally p l).
Proof.
  intros Hnd. induction Hnd as [ | a l Hnotin Hnd IH]; intros He Hp Hq Hrest.
  - by apply elem_of_nil in He.
  - simpl. apply elem_of_cons in He as [<- | He].
    + rewrite Hp, Hq. simpl. f_equal. apply tally_ext.
      intros b Hb. apply Hrest; [by apply list_elem_of_further | ].
      intros ->. done.
    + rewrite (Hrest a); [ | apply list_elem_of_here | by intros ->].
      rewrite IH; [lia | done | done | done | ].
      intros b Hb. apply Hrest. by apply list_elem_of_further.
Qed.

Lemma elem_of_allCoords w h c : c ∈ allCoords w h ↔ inb w h c.
Proof.
  unfold allCoords, inb. rewrite list_elem_of_bind. split.
  - intros (cy & Hc & Hy). apply list_elem_of_fmap in Hc as (cx & -> & Hx).
    apply elem_of_seqZ in Hx, Hy. simpl. lia.
  - intros [Hx Hy]. exists (y c). split.
    + apply list_elem_of_fmap. exists (x c). split; [by destruct c | ].
      apply elem_of_seqZ. lia.
    + apply elem_of_seqZ. lia.
Qed.

Lemma NoDup_allCoords w h : NoDup (allCoords w h).
Proof.
  unfold allCoords. apply NoDup_bind.
  - intros y1 y2 c _ _ H1 H2.
    apply list_elem_of_fmap in H1 as (? & -> & _).
    apply list_elem_of_fmap in H2 as (? & [=] & _). done.
  - intros cy _. apply NoDup_fmap_2; [ | apply NoDup_seqZ].
    by intros ? ? [=].
  - apply NoDup_seqZ.
Qed.

Lemma length_allCoords w h : length (allCoords w h) = (Z.to_nat w * Z.to_nat h)%nat.
Proof.
  unfold allCoords.
  rewrite <- (length_seqZ 0 h). generalize (seqZ 0 h) as rows.
  induction rows as [ | cy rows IH]; [simpl; lia | ].
  rewrite bind_cons, length_app, IH, length_fmap, length_seqZ. simpl. lia.
Qed.

(** ** Walls, passages and paths *)

Lemma reach_first m a s d :
  passage m a s = true → reach m (towards a s) d → reach m a d.
Proof.
  intros Hp. induction 1 as [ | b s' _ IH Hb].
  - apply reach_step; [apply reach_here | done].
  - by apply reach_step.
Qed.

Lemma reach_mono m m' a d :
  (∀ c s, wallAt m c s = false → wallAt m' c s = false) →
  reach m a d → reach m' a d.
Proof.
  intros Hmono. induction 1 as [ | b s _ IH Hb]; [apply reach_here | ].
  apply reach_step; [done | ].
  unfold passage in *. apply andb_true_iff in Hb as [H1 H2].
  apply negb_true_iff in H1, H2.
  by rewrite (Hmono _ _ H1), (Hmono _ _ H2).
Qed.

Lemma passage_broken w h c s m d s' :
  wellFormed w h m → inb w h c → inb w h (towards c s) →
  passage (broken c s m) d s' =
  passage m d s' || bool_decide (sameWall c s d s').
Proof.
  intros Hwf Hc Hn. unfold passage.
  rewrite !(wallAt_broken w h) by done.
  rewrite (bool_decide_ext _ _ (sameWall_flip c s d s')).
  destruct (wallAt m d s'), (wallAt m (towards d s') (opp s')),
    (bool_decide (sameWall c s d s')); done.
Qed.

Lemma visitedCount_visit w h m c :
  wellFormed w h m → inb w h c → vis m c = false →
  visitedCount w h (alterCell setVisited c m) = S (visitedCount w h m).
Proof.
  intros (_ & _ & _ & Hcells) Hc Hv. unfold visitedCount.
  destruct (Hcells c Hc) as (cell & E & _).
  apply tally_flip with c.
  - apply NoDup_allCoords.
  - by apply elem_of_allCoords.
  - done.
  - rewrite vis_visit by eauto. by rewrite bool_decide_eq_true_2.
  - intros a _ Hne. rewrite vis_visit by eauto.
    by rewrite bool_decide_eq_false_2.
Qed.

Lemma visitedCount_le w h m : (visitedCount w h m ≤ Z.to_nat w * Z.to_nat h)%nat.
Proof. unfold visitedCount. rewrite <- length_allCoords. apply tally_le_length. Qed.

Lemma brokenPairs_visit w h m c :
  brokenPairs w h (alterCell setVisited c m) = brokenPairs w h m.
Proof.
  unfold brokenPairs, passage. f_equal; apply tally_ext; intros a _;
    by rewrite !wallAt_visit.
Qed.

Lemma visitedCount_broken w h c s m :
  visitedCount w h (broken c s m) = visitedCount w h m.
Proof. unfold visitedCount. apply tally_ext. intros a _. apply vis_broken. Qed.

(** Breaking a standing wall between two cells of the grid adds exactly
    one broken pair. *)
Lemma brokenPairs_broken w h c s m :
  wellFormed w h m → inb w h c → inb w h (towards c s) →
  passage m c s = false →
  brokenPairs w h (broken c s m) = S (brokenPairs w h m).
Proof.
  intros Hwf Hc Hn Hclosed. unfold brokenPairs.
  assert (passage m (towards c s) (opp s) = false) as Hclosed'.
  { unfold passage in *. rewrite towards_back, opp_opp.
    by rewrite andb_comm. }
  assert (∀ e s0 s1, s0 ≠ s1 → s0 ≠ opp s1 →
            tally (fun d => passage (broken e s1 m) d s0) (allCoords w h) =
            tally (fun d => passage m d s0) (allCoords w h) ∨ ¬ inb w h e ∨ ¬ inb w h (towards e s1))
    as Hsame.
  { intros e s0 s1 H1 H2.
    destruct (decide (inb w h e)); [ | tauto].
    destruct (decide (inb w h (towards e s1))); [ | tauto].
    left. apply tally_ext. intros d _.
    rewrite (passage_broken w h) by done.
    rewrite bool_decide_eq_false_2; [by rewrite orb_false_r | ].
    unfold sameWall. intros [[_ ->] | [_ <-]]; done. }
  assert (∀ e s0, inb w h e → inb w h (towards e s0) → passage m e s0 = false →
            tally (fun d => passage (broken c s m) d s0) (allCoords w h) =
            S (tally (fun d => passage m d s0) (allCoords w h)) ∨ ¬ sameWall c s e s0)
    as Hflip.
  { intros e s0 He Hne Hpe.
    destruct (decide (sameWall c s e s0)) as [Hsw | ]; [left | by right].
    apply tally_flip with e.
    - apply NoDup_allCoords.
    - by apply elem_of_allCoords.
    - done.
    - rewrite (passage_broken w h) by done.
      rewrite bool_decide_eq_true_2 by done. apply orb_true_r.
    - intros a _ Hae. rewrite (passage_broken w h) by done.
      rewrite bool_decide_eq_false_2; [by rewrite orb_false_r | ].
      intros Hsw'. apply Hae.
      destruct Hsw as [[<- <-] | [<- <-]], Hsw' as [[E1 E2] | [E1 E2]];
        try done; destruct s; discriminate. }
  destruct s.
  - (* top: the bottom wall of the cell above *)
    destruct (Hsame c OnRight OnTop) as [-> | ?]; [done | done | | tauto].
    destruct (Hflip (towards c OnTop) OnBottom) as [-> | Hn'];
      [done | by rewrite towards_back | done | lia | ].
    exfalso. apply Hn'. by right.
  - (* right *)
    destruct (Hsame c OnBottom OnRight) as [-> | ?]; [done | done | | tauto].
    destruct (Hflip c OnRight) as [-> | Hn']; [done | done | done | lia | ].
    exfalso. apply Hn'. by left.
  - (* bottom *)
    destruct (Hsame c OnRight OnBottom) as [-> | ?]; [done | done | | tauto].
    destruct (Hflip c OnBottom) as [-> | Hn']; [done | done | done | lia | ].
    exfalso. apply Hn'. by left.
  - (* left: the right wall of the cell to the left *)
    destruct (Hsame c OnBottom OnLeft) as [-> | ?]; [done | done | | tauto].
    destruct (Hflip (towards c OnLeft) OnRight) as [-> | Hn'];
      [done | by rewrite towards_back | done | lia | ].
    exfalso. apply Hn'. by right.
Qed.

(** ** Running the primitives on a well-formed grid *)

Lemma breakCellWalls_Ok a s r :
  breakCellWalls (Some a) (Some (towards a s)) (wallOf s) r = Ok tt (brokeWall a s r).
Proof. reflexivity. Qed.

Lemma getCell_Some r c cell :
  cellAt (maze r) c = Some cell → getCell c r = Ok (Some c) r.
Proof.
  unfold cellAt, getCell. destruct (cells (maze r)) as [cs | ]; [ | done].
  destruct (index cs (y c)) as [row | ]; [ | done].
  by intros ->.
Qed.

Lemma deref_Some r c cell :
  cellAt (maze r) c = Some cell → deref (Some c) r = Ok cell r.
Proof. unfold deref. by intros ->. Qed.

Lemma unvisitedOf_wellFormed w h r l :
  wellFormed w h (maze r) → (∀ n, n ∈ l → inb w h n) →
  unvisitedOf l r = Ok (unvisitedAmong (maze r) l) r.
Proof.
  intros Hwf. pose proof Hwf as (_ & _ & _ & Hcells).
  induction l as [ | n l IH]; intros Hin; [done | ].
  destruct (Hcells n) as (cell & E & Ex & Ey & _); [apply Hin, list_elem_of_here | ].
  cbn [unvisitedOf].
  rewrite (bind_Ok _ _ _ _ _ (getCell_Some r n cell E)).
  rewrite (bind_Ok _ _ _ _ _ (deref_Some r n cell E)).
  rewrite (bind_Ok _ _ _ _ _ (IH (fun b Hb => Hin b (list_elem_of_further _ _ _ Hb)))).
  unfold ret, unvisitedAmong. f_equal.
  rewrite filter_cons.
  assert (vis (maze r) n = visited cell) as -> by (unfold vis; by rewrite E).
  rewrite Ex, Ey.
  destruct (visited cell); simpl; [done | by destruct n].
Qed.

Lemma getUnvisitedAdjacents_wellFormed w h r c :
  wellFormed w h (maze r) → inb w h c →
  getUnvisitedAdjacents (Some c) r =
  Ok (unvisitedAmong (maze r) (neighbours w h c)) r.
Proof.
  intros Hwf Hc. pose proof Hwf as (_ & _ & _ & Hcells).
  destruct (Hcells c Hc) as (cell & E & _ & _ & Eadj).
  unfold getUnvisitedAdjacents.
  rewrite (bind_Ok _ _ _ _ _ (deref_Some r c cell E)), Eadj.
  apply (unvisitedOf_wellFormed w h); [done | ].
  intros n Hn. by apply (elem_of_neighbours w h c n Hc) in Hn as [_ ?].
Qed.

(** The two direction tests of the loop body select exactly the wall
    that faces the chosen neighbour. *)
Lemma direction_tests c s (k : M unit) r :
  ((if decide (x (towards c s) > x c)
    then breakCellWalls (Some c) (Some (towards c s)) WALL_RIGHT
    else if decide (x (towards c s) < x c)
         then breakCellWalls (Some c) (Some (towards c s)) WALL_LEFT
         else ret tt) ;;
   (if decide (y (towards c s) > y c)
    then breakCellWalls (Some c) (Some (towards c s)) WALL_BOTTOM
    else if decide (y (towards c s) < y c)
         then breakCellWalls (Some c) (Some (towards c s)) WALL_TOP
         else ret tt) ;;
   k) r = k (brokeWall c s r).
Proof.
  destruct s; simpl towards; simpl x; simpl y.
  - rewrite (decide_False (P := x c > x c)), (decide_False (P := x c < x c)) by lia.
    rewrite (decide_False (P := y c - 1 > y c)), (decide_True (P := y c - 1 < y c)) by lia.
    reflexivity.
  - rewrite (decide_True (P := x c + 1 > x c)) by lia.
    rewrite (decide_False (P := y c > y c)), (decide_False (P := y c < y c)) by lia.
    reflexivity.
  - rewrite (decide_False (P := x c > x c)), (decide_False (P := x c < x c)) by lia.
    rewrite (decide_True (P := y c + 1 > y c)) by lia.
    reflexivity.
  - rewrite (decide_False (P := x c - 1 > x c)), (decide_True (P := x c - 1 < x c)) by lia.
    rewrite (decide_False (P := y c > y c)), (decide_False (P := y c < y c)) by lia.
    reflexivity.
Qed.

(** The two defining equations with fuel to spare. *)
Lemma generate_S random fuel coord :
  generate random (S fuel) coord =
  (enterFrame ;;
   let* current := getCell coord in
   markVisited current ;;
   let* adjacents := getUnvisitedAdjacents current in
   generate_while random fuel coord current adjacents ;;
   leaveFrame).
Proof. reflexivity. Qed.

Lemma generate_while_S random fuel coord current adjacents :
  adjacents ≠ [] →
  generate_while random (S fuel) coord current adjacents =
  (let* i := randomIndex random (length adjacents) in
   let* next := element adjacents i in
   let* nextNode := getCell next in
   (if decide (x next > x coord) then breakCellWalls current nextNode WALL_RIGHT
    else if decide (x next < x coord) then breakCellWalls current nextNode WALL_LEFT
    else ret tt) ;;
   (if decide (y next > y coord) then breakCellWalls current nextNode WALL_BOTTOM
    else if decide (y next < y coord) then breakCellWalls current nextNode WALL_TOP
    else ret tt) ;;
   generate random fuel next ;;
   let* adjacents' := getUnvisitedAdjacents current in
   generate_while random fuel coord current adjacents').
Proof. destruct adjacents; [done | reflexivity]. Qed.

(** ** Consistency of the grid under the two mutations *)

Lemma consistent_reset m : consistent (width m) (height m) (reset m).
Proof.
  split; [apply wellFormed_reset | ].
  intros c s Hc Hn. unfold wallAt. rewrite !cellAt_reset, !decide_True by done.
  by rewrite !resetCell_walls, !hasWall_full.
Qed.

Lemma sealed_reset m : sealedExcept (width m) (height m) (reset m) nowhere.
Proof.
  intros d s Hd _ _. unfold wallAt. rewrite cellAt_reset, decide_True by done.
  by rewrite resetCell_walls, hasWall_full.
Qed.

Lemma consistent_visit w h c m :
  consistent w h m → consistent w h (alterCell setVisited c m).
Proof.
  intros [Hwf Hsym]. split; [by apply wellFormed_visit | ].
  intros d s Hd Hn. rewrite !wallAt_visit. by apply Hsym.
Qed.

Lemma sealed_visit w h c m :
  wellFormed w h m → inb w h c →
  sealedExcept w h m (eq c) → sealedExcept w h (alterCell setVisited c m) nowhere.
Proof.
  intros (_ & _ & _ & Hcells) Hc Hs d s Hd _.
  destruct (Hcells c Hc) as (cell & E & _).
  rewrite vis_visit, wallAt_visit by eauto.
  intros Hv. apply orb_false_iff in Hv as [Hne Hv].
  apply bool_decide_eq_false in Hne. by apply Hs.
Qed.

Lemma consistent_broken w h c s m :
  consistent w h m → inb w h c → inb w h (towards c s) →
  consistent w h (broken c s m).
Proof.
  intros [Hwf Hsym] Hc Hn. split; [by apply wellFormed_broken | ].
  intros d s' Hd Hn'. rewrite !(wallAt_broken w h) by done.
  rewrite (bool_decide_ext _ _ (sameWall_flip c s d s')).
  f_equal. by apply Hsym.
Qed.

Lemma sealed_broken w h c s m :
  wellFormed w h m → inb w h c → inb w h (towards c s) → vis m c = true →
  sealedExcept w h m nowhere →
  sealedExcept w h (broken c s m) (eq (towards c s)).
Proof.
  intros Hwf Hc Hn Hvc Hs d s' Hd Hne. rewrite vis_broken. intros Hv.
  rewrite (wallAt_broken w h) by done.
  rewrite (Hs d s' Hd) by (done || by intros []).
  rewrite bool_decide_eq_false_2; [done | ].
  intros [[-> _] | [E _]]; [congruence | done].
Qed.

(** ** The depth-first traversal *)

Section DepthFirst.

Variables (w h : Z) (random : nat → nat).

Local Abbreviation size := (Z.to_nat w * Z.to_nat h)%nat.
Local Abbreviation visitedIn r := (visitedCount w h (maze r)).

Lemma loop_exit c r :
  consistent w h (maze r) → sealedExcept w h (maze r) nowhere → inb w h c →
  unvisitedAmong (maze r) (neighbours w h c) = [] →
  Grown w h 0 c r r ∧ surrounded w h c r.
Proof.
  intros Hcons Hsealed Hc Hnone. split.
  - split; try done; try lia.
    + intros d _ Hv Hv'. congruence.
    + exists []. by rewrite app_nil_r.
  - intros s Hn. destruct (vis (maze r) (towards c s)) eqn:Hv; [done | ].
    assert (towards c s ∈ unvisitedAmong (maze r) (neighbours w h c)) as Hin.
    { apply list_elem_of_filter. split; [done | ].
      apply elem_of_neighbours; [done | ]. split; [by eexists | done]. }
    rewrite Hnone in Hin. by apply elem_of_nil in Hin.
Qed.

Lemma call_step c r r3 :
  consistent w h (maze r) → sealedExcept w h (maze r) (eq c) → inb w h c →
  vis (maze r) c = false → (frames r ≤ visitedIn r)%nat →
  Grown w h 0 c (marked c (entered r)) r3 → surrounded w h c r3 →
  Grown w h 1 c r (returned r3).
Proof.
  intros [Hwf Hsym] Hsealed Hc Hv Hframes [Gc Gs Gv Gw Gn Gp Gk Gf Gd Gh _] Hsur.
  pose proof Hwf as (_ & _ & _ & Hcells).
  destruct (Hcells c Hc) as (cell & E & _).
  simpl in *.
  rewrite brokenPairs_visit in Gp.
  rewrite (visitedCount_visit w h) in Gp, Gk by done.
  split; simpl; try done; try lia.
  - intros d Hd. apply Gv. rewrite vis_visit by eauto. rewrite Hd. apply orb_true_r.
  - intros d s Hd. apply Gw. by rewrite wallAt_visit.
  - intros d Hd Hv3 Hv0. destruct (decide (c = d)) as [<- | Hne].
    + split; [apply reach_here | apply Hsur].
    + apply Gn; [done | done | ].
      rewrite vis_visit by eauto. by rewrite bool_decide_eq_false_2.
  - pose proof (visitedCount_le w h (maze r3)). lia.
  - destruct Gh as (Δ & EΔ & HΔ). eexists (_ :: Δ). split.
    + rewrite EΔ, <- app_assoc. done.
    + constructor; [ | done]. simpl. by apply consistent_visit.
  - intros _. apply Gv. rewrite vis_visit by eauto. by rewrite bool_decide_eq_true_2.
Qed.

Lemma loop_step c s r r2 r3 :
  consistent w h (maze r) → sealedExcept w h (maze r) nowhere →
  inb w h c → inb w h (towards c s) →
  vis (maze r) c = true → vis (maze r) (towards c s) = false →
  Grown w h 1 (towards c s) (brokeWall c s (drew r)) r2 →
  Grown w h 0 c r2 r3 →
  Grown w h 0 c r r3.
Proof.
  intros [Hwf Hsym] Hsealed Hc Hn Hvc Hvn
    [Gc Gs Gv Gw Gn Gp Gk Gf Gd Gh _] [Lc Ls Lv Lw Ln Lp Lk Lf Ld Lh _].
  simpl in *.
  assert (passage (maze r) c s = false) as Hclosed.
  { unfold passage. rewrite (Hsealed (towards c s) (opp s)) by (done || by intros []).
    apply andb_false_r. }
  rewrite (brokenPairs_broken w h) in Gp by done.
  rewrite visitedCount_broken in Gp, Gk.
  assert (passage (maze r3) c s = true) as Hopen.
  { unfold passage. rewrite !Lw; [done | | ]; apply Gw;
      rewrite (wallAt_broken w h) by done;
      (rewrite bool_decide_eq_true_2; [apply andb_false_r | ]).
    - by right.
    - by left. }
  split; try done; try lia.
  - intros d Hd. apply Lv, Gv. by rewrite vis_broken.
  - intros d s' Hd. apply Lw, Gw. rewrite (wallAt_broken w h) by done.
    by rewrite Hd.
  - intros d Hd Hv3 Hv0. destruct (vis (maze r2) d) eqn:Hv2.
    + destruct (Gn d) as [Hreach Hsur]; [done | done | by rewrite vis_broken | ].
      split.
      * apply reach_first with s; [done | ]. by apply reach_mono with (maze r2).
      * intros s' Hs'. by apply Lv, Hsur.
    + by apply Ln.
  - destruct Gh as (Δ1 & E1 & H1), Lh as (Δ2 & E2 & H2).
    eexists (_ :: Δ1 ++ Δ2). split.
    + rewrite E2, E1, <- !app_assoc. done.
    + constructor; [ | by apply Forall_app].
      simpl. by apply consistent_broken.
Qed.

(** Fuel: two units per cell that is still unvisited are enough. *)
Lemma generate_grows (fuel : nat) :
  (∀ c r,
      consistent w h (maze r) → sealedExcept w h (maze r) (eq c) → inb w h c →
      vis (maze r) c = false → (frames r ≤ visitedIn r)%nat →
      (2 * (size - visitedIn r) ≤ S fuel)%nat →
      ∃ r', generate random fuel c r = Ok tt r' ∧ Grown w h 1 c r r') ∧
  (∀ c r,
      consistent w h (maze r) → sealedExcept w h (maze r) nowhere → inb w h c →
      vis (maze r) c = true → (frames r ≤ visitedIn r)%nat →
      (2 * (size - visitedIn r) ≤ fuel)%nat →
      ∃ r', generate_while random fuel c (Some c)
              (unvisitedAmong (maze r) (neighbours w h c)) r = Ok tt r' ∧
            Grown w h 0 c r r' ∧ surrounded w h c r').
Proof.
  induction fuel as [ | fuel [IHg IHw]].
  - split.
    + intros c r [Hwf _] _ Hc Hv _ Hfuel.
      pose proof (visitedCount_visit w h _ c Hwf Hc Hv).
      pose proof (visitedCount_le w h (alterCell setVisited c (maze r))). lia.
    + intros c r Hcons Hsealed Hc Hv _ Hfuel.
      destruct (unvisitedAmong (maze r) (neighbours w h c)) as [ | n rest] eqn:Eadj.
      * exists r. split; [done | by apply loop_exit].
      * assert (n ∈ unvisitedAmong (maze r) (neighbours w h c)) as Hin
          by (rewrite Eadj; apply list_elem_of_here).
        apply list_elem_of_filter in Hin as [Hvn Hin].
        apply (elem_of_neighbours w h c n Hc) in Hin as [_ Hn].
        pose proof (visitedCount_visit w h _ n (proj1 Hcons) Hn Hvn).
        pose proof (visitedCount_le w h (alterCell setVisited n (maze r))). lia.
  - split.
    + intros c r Hcons Hsealed Hc Hv Hframes Hfuel.
      pose proof Hcons as [Hwf _].
      pose proof Hwf as (_ & _ & _ & Hcells).
      destruct (Hcells c Hc) as (cell & E & _).
      pose proof (visitedCount_visit w h _ c Hwf Hc Hv) as Hcount.
      destruct (IHw c (marked c (entered r))) as (r3 & Hrun & Hgrown & Hsur).
      { by apply consistent_visit. }
      { by apply sealed_visit. }
      { done. }
      { simpl. rewrite vis_visit by eauto. by rewrite bool_decide_eq_true_2. }
      { simpl. lia. }
      { simpl. lia. }
      exists (returned r3). split; [ | by apply call_step].
      rewrite generate_S.
      rewrite (bind_Ok _ _ r tt (entered r)) by done.
      rewrite (bind_Ok _ _ _ _ _ (getCell_Some (entered r) c cell E)).
      rewrite (bind_Ok _ _ (entered r) tt (marked c (entered r))) by done.
      rewrite (bind_Ok _ _ _ _ _
                 (getUnvisitedAdjacents_wellFormed w h (marked c (entered r)) c
                    (wellFormed_visit w h c _ Hwf) Hc)).
      rewrite (bind_Ok _ _ _ _ _ Hrun). done.
    + intros c r Hcons Hsealed Hc Hv Hframes Hfuel.
      pose proof Hcons as [Hwf _].
      destruct (unvisitedAmong (maze r) (neighbours w h c)) as [ | n0 rest] eqn:Eadj.
      { exists r. split; [done | by apply loop_exit]. }
      rewrite <- Eadj.
      set (adjacents := unvisitedAmong (maze r) (neighbours w h c)) in *.
      set (i := (random (draws r) mod length adjacents)%nat).
      assert (i < length adjacents)%nat as Hi.
      { apply Nat.mod_upper_bound. rewrite Eadj. simpl. lia. }
      destruct (lookup_lt_is_Some_2 adjacents i Hi) as [next Hnext].
      assert (next ∈ adjacents) as Hin by (by apply list_elem_of_lookup_2 in Hnext).
      apply list_elem_of_filter in Hin as [Hvn Hin].
      apply (elem_of_neighbours w h c next Hc) in Hin as [[s ->] Hn].
      pose proof Hwf as (_ & _ & _ & Hcells).
      destruct (Hcells _ Hn) as (celln & En & _).
      destruct (IHg (towards c s) (brokeWall c s (drew r))) as (r2 & Hrun2 & Hgrown2).
      { by apply consistent_broken. }
      { by apply sealed_broken. }
      { done. }
      { simpl. by rewrite vis_broken. }
      { simpl. by rewrite visitedCount_broken. }
      { simpl. rewrite visitedCount_broken. lia. }
      pose proof Hgrown2 as [Gc Gs Gv _ _ _ Gk Gf _ _ _]. simpl in Gk, Gf, Gv.
      rewrite visitedCount_broken in Gk.
      destruct (IHw c r2) as (r3 & Hrun3 & Hgrown3 & Hsur3).
      { done. }
      { done. }
      { done. }
      { apply Gv. by rewrite vis_broken. }
      { lia. }
      { lia. }
      exists r3. split; [ | split; [by apply loop_step with s r2 | done]].
      rewrite generate_while_S by (by rewrite Eadj).
      rewrite (bind_Ok _ _ r i (drew r)) by done.
      unfold element. rewrite Hnext.
      rewrite (bind_Ok _ _ (drew r) (towards c s) (drew r)) by done.
      rewrite (bind_Ok _ _ _ _ _ (getCell_Some (drew r) (towards c s) celln En)).
      rewrite direction_tests.
      rewrite (bind_Ok _ _ _ _ _ Hrun2).
      rewrite (bind_Ok _ _ _ _ _
                 (getUnvisitedAdjacents_wellFormed w h r2 c (proj1 Gc) Hc)).
      done.
Qed.

End DepthFirst.

(** ** From a reset grid *)

(** A set of grid positions that contains one position and is closed
    under stepping to a neighbour inside the grid is the whole grid. *)
Lemma closed_is_everything w h (V : Coordinate → bool) (start : Coordinate) :
  inb w h start → V start = true →
  (∀ d s, inb w h d → V d = true → inb w h (towards d s) → V (towards d s) = true) →
  ∀ c, inb w h c → V c = true.
Proof.
  intros Hstart Hv Hclosed c Hc.
  assert (∀ n d, inb w h d → V d = true →
                 Z.abs (x c - x d) + Z.abs (y c - y d) = Z.of_nat n → V c = true)
    as Hwalk.
  { induction n as [ | n IH]; intros d Hd Hvd Hdist.
    - assert (c = d) as -> by (apply coord_eq; lia). done.
    - destruct Hc as [Hcx Hcy], Hd as [Hdx Hdy].
      destruct (decide (x d < x c)).
      { apply (IH (towards d OnRight)); [ | apply Hclosed | ];
          unfold inb; simpl; (done || lia). }
      destruct (decide (x c < x d)).
      { apply (IH (towards d OnLeft)); [ | apply Hclosed | ];
          unfold inb; simpl; (done || lia). }
      destruct (decide (y d < y c)).
      { apply (IH (towards d OnBottom)); [ | apply Hclosed | ];
          unfold inb; simpl; (done || lia). }
      apply (IH (towards d OnTop)); [ | apply Hclosed | ];
        unfold inb; simpl; (done || lia). }
  apply (Hwalk (Z.to_nat (Z.abs (x c - x start) + Z.abs (y c - y start))) start);
    [done | done | lia].
Qed.

Lemma vis_reset m c : vis (reset m) c = false.
Proof.
  unfold vis. rewrite cellAt_reset. case_decide; [ | done].
  by destruct (resetCell_fields m (x c) (y c)) as (_ & _ & ->).
Qed.

Lemma wallAt_reset m c s : wallAt (reset m) c s = true.
Proof.
  unfold wallAt. rewrite cellAt_reset. case_decide; [ | done].
  by rewrite resetCell_walls, hasWall_full.
Qed.

Lemma visitedCount_reset w h m : visitedCount w h (reset m) = 0%nat.
Proof. apply tally_none. intros c _. apply vis_reset. Qed.

Lemma brokenPairs_reset w h m : brokenPairs w h (reset m) = 0%nat.
Proof.
  unfold brokenPairs.
  rewrite !tally_none; [done | | ]; intros c _; unfold passage;
    by rewrite wallAt_reset.
Qed.

(** The run of [generate] on a freshly reset [w] by [h] maze: it returns,
    with any fuel from [2 * w * h] on, and this is what it has done. *)
Lemma generate_from_reset w h random start :
  inb w h start →
  let r0 := startRun (reset (newMaze w h)) in
  ∃ r', (∀ fuel, (2 * (Z.to_nat w * Z.to_nat h) ≤ fuel)%nat →
                 generate random fuel start r0 = Ok tt r') ∧
        Grown w h 1 start r0 r' ∧
        (∀ c, inb w h c → vis (maze r') c = true).
Proof.
  intros Hstart r0.
  assert (∀ fuel, (2 * (Z.to_nat w * Z.to_nat h) ≤ fuel)%nat →
            ∃ r', generate random fuel start r0 = Ok tt r' ∧ Grown w h 1 start r0 r')
    as Hrun.
  { intros fuel Hfuel.
    apply (proj1 (generate_grows w h random fuel)); simpl.
    - apply (consistent_reset (newMaze w h)).
    - intros d s Hd _ _. apply wallAt_reset.
    - done.
    - apply vis_reset.
    - lia.
    - lia. }
  destruct (Hrun _ (Nat.le_refl _)) as (r' & Hr' & Hgrown).
  exists r'. split; [ | split; [done | ]].
  - intros fuel Hfuel. rewrite <- Hr'.
    apply generate_fuel_le; [done | by rewrite Hr'].
  - destruct Hgrown as [_ _ _ _ Gn _ _ _ _ _ Gst]. simpl in Gn.
    apply (closed_is_everything w h (vis (maze r')) start); [done | apply Gst; lia | ].
    intros d s Hd Hvd Hn. by apply (Gn d Hd Hvd (vis_reset _ _)).
Qed.

(** * The claims *)

(** C1. Spanning tree: for a [w] by [h] grid with [w, h >= 1] and a start
    inside it, [generate] from the reset grid returns, whatever the random
    choices; afterwards every cell is reachable from the start by a path
    of broken walls, and exactly [w * h - 1] wall-pairs are broken. *)
Theorem generate_spanning_tree (w h : Z) (random : nat → nat) (start : Coordinate) :
  1 ≤ w → 1 ≤ h → inb w h start →
  ∃ r', (∀ fuel, (2 * (Z.to_nat w * Z.to_nat h) ≤ fuel)%nat →
                 generate random fuel start (startRun (reset (newMaze w h))) = Ok tt r') ∧
        (∀ c, inb w h c → reach (maze r') start c) ∧
        Z.of_nat (brokenPairs w h (maze r')) = w * h - 1.
Proof.
  intros Hw Hh Hstart.
  destruct (generate_from_reset w h random start Hstart) as (r' & Hrun & Hgrown & Hall).
  exists r'. split; [done | ].
  destruct Hgrown as [_ _ _ _ Gn Gp _ _ _ _ _]. simpl in Gn, Gp.
  split.
  - intros c Hc. by apply (Gn c Hc (Hall c Hc) (vis_reset _ _)).
  - rewrite visitedCount_reset, brokenPairs_reset in Gp.
    assert (visitedCount w h (maze r') = (Z.to_nat w * Z.to_nat h)%nat) as Hfull.
    { unfold visitedCount. rewrite <- length_allCoords. apply tally_all.
      intros c Hc. apply Hall. by apply elem_of_allCoords. }
    rewrite Hfull in Gp.
    assert (Z.of_nat (Z.to_nat w * Z.to_nat h) = w * h) as <-
      by (rewrite Nat2Z.inj_mul, !Z2Nat.id; lia).
    lia.
Qed.

Lemma generate_spanning_tree_witness :
  (1 ≤ 2 ∧ 1 ≤ 2 ∧ inb 2 2 (Coord 0 0)) ∧
  ∃ r', (∀ fuel, (2 * (Z.to_nat 2 * Z.to_nat 2) ≤ fuel)%nat →
                 generate zeroes fuel (Coord 0 0) (startRun (reset (newMaze 2 2))) = Ok tt r') ∧
        (∀ c, inb 2 2 c → reach (maze r') (Coord 0 0) c) ∧
        Z.of_nat (brokenPairs 2 2 (maze r')) = 2 * 2 - 1.
Proof.
  assert (1 ≤ 2 ∧ 1 ≤ 2 ∧ inb 2 2 (Coord 0 0)) as H
    by (unfold inb; simpl; lia).
  split; [exact H | ].
  apply (generate_spanning_tree 2 2 zeroes (Coord 0 0)); apply H.
Defined.

(** C2. Wall symmetry: from a reset grid, after every mutation that
    [generate] performs and in the final state, the wall bit of a cell
    facing an adjacent cell is set exactly when the facing bit of that
    cell is set. *)
Theorem generate_wall_symmetry (w h : Z) (random : nat → nat) (start : Coordinate) :
  1 ≤ w → 1 ≤ h → inb w h start →
  symmetric w h (reset (newMaze w h)) ∧
  ∃ r', (∀ fuel, (2 * (Z.to_nat w * Z.to_nat h) ≤ fuel)%nat →
                 generate random fuel start (startRun (reset (newMaze w h))) = Ok tt r') ∧
        Forall (fun s => symmetric w h (after s)) (history r') ∧
        symmetric w h (maze r').
Proof.
  intros Hw Hh Hstart. split; [apply (consistent_reset (newMaze w h)) | ].
  destruct (generate_from_reset w h random start Hstart) as (r' & Hrun & Hgrown & _).
  exists r'. split; [done | ].
  destruct Hgrown as [[_ Gsym] _ _ _ _ _ _ _ _ (Δ & EΔ & HΔ) _]. simpl in EΔ.
  split; [ | done].
  rewrite EΔ. eapply Forall_impl; [exact HΔ | ]. by intros s [_ ?].
Qed.

Lemma generate_wall_symmetry_witness :
  (1 ≤ 2 ∧ 1 ≤ 3 ∧ inb 2 3 (Coord 1 2)) ∧
  symmetric 2 3 (reset (newMaze 2 3)) ∧
  ∃ r', (∀ fuel, (2 * (Z.to_nat 2 * Z.to_nat 3) ≤ fuel)%nat →
                 generate zeroes fuel (Coord 1 2) (startRun (reset (newMaze 2 3))) = Ok tt r') ∧
        Forall (fun s => symmetric 2 3 (after s)) (history r') ∧
        symmetric 2 3 (maze r').
Proof.
  assert (1 ≤ 2 ∧ 1 ≤ 3 ∧ inb 2 3 (Coord 1 2)) as H
    by (unfold inb; simpl; lia).
  split; [exact H | ].
  apply (generate_wall_symmetry 2 3 zeroes (Coord 1 2)); apply H.
Defined.

(** C9. Termination and recursion depth: from a reset [w] by [h] grid
    and a start inside it, [generate] returns for every sequence of random
    choices, all frames are popped, and the call stack never held more
    than [w * h] frames of [generate]. *)
Theorem generate_terminates (w h : Z) (random : nat → nat) (start : Coordinate) :
  1 ≤ w → 1 ≤ h → inb w h start →
  ∃ r', (∀ fuel, (2 * (Z.to_nat w * Z.to_nat h) ≤ fuel)%nat →
                 generate random fuel start (startRun (reset (newMaze w h))) = Ok tt r') ∧
        frames r' = 0%nat ∧
        Z.of_nat (deepest r') ≤ w * h.
Proof.
  intros Hw Hh Hstart.
  destruct (generate_from_reset w h random start Hstart) as (r' & Hrun & Hgrown & _).
  exists r'. split; [done | ].
  destruct Hgrown as [_ _ _ _ _ _ _ Gf Gd _ _]. simpl in Gf, Gd.
  split; [done | ].
  assert (Z.of_nat (Z.to_nat w * Z.to_nat h) = w * h) as <-
    by (rewrite Nat2Z.inj_mul, !Z2Nat.id; lia).
  lia.
Qed.

Lemma generate_terminates_witness :
  (1 ≤ 3 ∧ 1 ≤ 2 ∧ inb 3 2 (Coord 2 0)) ∧
  ∃ r', (∀ fuel, (2 * (Z.to_nat 3 * Z.to_nat 2) ≤ fuel)%nat →
                 generate zeroes fuel (Coord 2 0) (startRun (reset (newMaze 3 2))) = Ok tt r') ∧
        frames r' = 0%nat ∧
        Z.of_nat (deepest r') ≤ 3 * 2.
Proof.
  assert (1 ≤ 3 ∧ 1 ≤ 2 ∧ inb 3 2 (Coord 2 0)) as H
    by (unfold inb; simpl; lia).
  split; [exact H | ].
  apply (generate_terminates 3 2 zeroes (Coord 2 0)); apply H.
Defined.

Lemma clear_bits (wl : Z) (s : Side) :
  - 2 ^ 31 ≤ wl < 2 ^ 31 →
  ∀ i, 0 ≤ i →
       Z.testbit (js_and wl (js_not (wallOf s))) i =
       Z.testbit wl i && negb (i =? bitOf s).
Proof.
  intros Hrange i Hi. unfold js_and. rewrite (toInt32_id wl Hrange).
  assert (toInt32 (js_not (wallOf s)) = Z.lnot (2 ^ bitOf s)) as ->
    by (destruct s; reflexivity).
  rewrite Z.land_spec, Z.lnot_spec, Z.pow2_bits_eqb by (done || destruct s; simpl; lia).
  by rewrite (Z.eqb_sym i).
Qed.

(** C3. [breakCellWalls(A, B, w)], for a wall [w] of the four and [B] the
    cell next to [A] on that side, clears bit [w] of [A]'s mask and the
    opposite bit of [B]'s mask, changes no other bit, no other field and
    no other cell, and is one logged operation. *)
Theorem breakCellWalls_clears_pair (r : Run) (a : Coordinate) (s : Side)
    (cellA cellB : MazeCell) :
  cellAt (maze r) a = Some cellA →
  cellAt (maze r) (towards a s) = Some cellB →
  - 2 ^ 31 ≤ walls cellA < 2 ^ 31 →
  - 2 ^ 31 ≤ walls cellB < 2 ^ 31 →
  ∃ r' cellA' cellB',
    breakCellWalls (Some a) (Some (towards a s)) (wallOf s) r = Ok tt r' ∧
    cellAt (maze r') a = Some cellA' ∧
    cellAt (maze r') (towards a s) = Some cellB' ∧
    (∀ i, 0 ≤ i →
          Z.testbit (walls cellA') i = Z.testbit (walls cellA) i && negb (i =? bitOf s)) ∧
    (∀ i, 0 ≤ i →
          Z.testbit (walls cellB') i =
          Z.testbit (walls cellB) i && negb (i =? bitOf (opp s))) ∧
    (cell_x cellA', cell_y cellA', adjacentCells cellA', visited cellA') =
    (cell_x cellA, cell_y cellA, adjacentCells cellA, visited cellA) ∧
    (cell_x cellB', cell_y cellB', adjacentCells cellB', visited cellB') =
    (cell_x cellB, cell_y cellB, adjacentCells cellB, visited cellB) ∧
    (∀ c, c ≠ a → c ≠ towards a s → cellAt (maze r') c = cellAt (maze r) c) ∧
    history r' =
    history r ++ [ {| op := OpBreak a (towards a s) (wallOf s); after := maze r' |} ].
Proof.
  intros Ea Eb Ha Hb.
  exists (brokeWall a s r), (clearWall (wallOf s) cellA),
    (clearWall (wallOf (opp s)) cellB).
  pose proof (towards_ne a s) as Hne.
  split; [apply breakCellWalls_Ok | ].
  simpl. unfold broken. rewrite oppositeWall_wallOf.
  split; [ | split].
  - rewrite cellAt_alterCell_other by done. by apply cellAt_alterCell_same.
  - apply cellAt_alterCell_same. by rewrite cellAt_alterCell_other.
  - split; [by apply clear_bits | ].
    split; [by apply clear_bits | ].
    split; [done | split; [done | split; [ | done]]].
    intros c Hca Hcb. by rewrite !cellAt_alterCell_other.
Qed.

Lemma breakCellWalls_clears_pair_witness :
  ∃ r' cellA' cellB',
    breakCellWalls (Some (Coord 0 0)) (Some (towards (Coord 0 0) OnRight)) (wallOf OnRight)
      twoCells = Ok tt r' ∧
    cellAt (maze r') (Coord 0 0) = Some cellA' ∧
    cellAt (maze r') (towards (Coord 0 0) OnRight) = Some cellB' ∧
    (∀ i, 0 ≤ i →
          Z.testbit (walls cellA') i =
          Z.testbit (walls (resetCell (newMaze 2 1) 0 0)) i && negb (i =? bitOf OnRight)) ∧
    (∀ i, 0 ≤ i →
          Z.testbit (walls cellB') i =
          Z.testbit (walls (resetCell (newMaze 2 1) 1 0)) i && negb (i =? bitOf (opp OnRight))) ∧
    (cell_x cellA', cell_y cellA', adjacentCells cellA', visited cellA') =
    (cell_x (resetCell (newMaze 2 1) 0 0), cell_y (resetCell (newMaze 2 1) 0 0),
     adjacentCells (resetCell (newMaze 2 1) 0 0), visited (resetCell (newMaze 2 1) 0 0)) ∧
    (cell_x cellB', cell_y cellB', adjacentCells cellB', visited cellB') =
    (cell_x (resetCell (newMaze 2 1) 1 0), cell_y (resetCell (newMaze 2 1) 1 0),
     adjacentCells (resetCell (newMaze 2 1) 1 0), visited (resetCell (newMaze 2 1) 1 0)) ∧
    (∀ c, c ≠ Coord 0 0 → c ≠ towards (Coord 0 0) OnRight →
          cellAt (maze r') c = cellAt (maze twoCells) c) ∧
    history r' =
    history twoCells ++
      [ {| op := OpBreak (Coord 0 0) (towards (Coord 0 0) OnRight) (wallOf OnRight);
           after := maze r' |} ].
Proof.
  apply (breakCellWalls_clears_pair twoCells (Coord 0 0) OnRight
           (resetCell (newMaze 2 1) 0 0) (resetCell (newMaze 2 1) 1 0)).
  - reflexivity.
  - reflexivity.
  - vm_compute. split; congruence.
  - vm_compute. split; congruence.
Defined.

(** C4. The encoding: top is bit 3 (8), right is bit 2 (4), bottom is bit
    1 (2), left is bit 0 (1); a mask is the sum of the bits of its walls,
    each read back by the test [draw] uses; the mask [reset] gives every
    cell is 15 and the mask without walls is 0. *)
Theorem wall_encoding :
  (WALL_TOP = 8 ∧ WALL_RIGHT = 4 ∧ WALL_BOTTOM = 2 ∧ WALL_LEFT = 1) ∧
  (WALL_TOP = 2 ^ 3 ∧ WALL_RIGHT = 2 ^ 2 ∧ WALL_BOTTOM = 2 ^ 1 ∧ WALL_LEFT = 2 ^ 0) ∧
  (∀ t r b l,
      maskOf t r b l = 8 * Z.b2z t + 4 * Z.b2z r + 2 * Z.b2z b + Z.b2z l ∧
      hasWall (maskOf t r b l) WALL_TOP = t ∧
      hasWall (maskOf t r b l) WALL_RIGHT = r ∧
      hasWall (maskOf t r b l) WALL_BOTTOM = b ∧
      hasWall (maskOf t r b l) WALL_LEFT = l ∧
      Z.testbit (maskOf t r b l) 3 = t ∧
      Z.testbit (maskOf t r b l) 2 = r ∧
      Z.testbit (maskOf t r b l) 1 = b ∧
      Z.testbit (maskOf t r b l) 0 = l) ∧
  maskOf true true true true = 15 ∧
  maskOf false false false false = 0 ∧
  (∀ m cx cy, walls (resetCell m cx cy) = 15) ∧
  js_and (js_and (js_and (js_and 15 (js_not WALL_TOP)) (js_not WALL_RIGHT))
                 (js_not WALL_BOTTOM)) (js_not WALL_LEFT) = 0.
Proof.
  split; [repeat split; reflexivity | ].
  split; [repeat split; reflexivity | ].
  split; [intros [] [] [] []; repeat split; reflexivity | ].
  split; [reflexivity | ].
  split; [reflexivity | ].
  split; [apply resetCell_walls | reflexivity].
Qed.

(** ** Calls in sequence *)

Lemma chain_last m l m' : chain evolves m (l ++ [m']) → evolves m m'.
Proof.
  revert m. induction l as [ | a l IH]; simpl; intros m.
  - by intros [? _].
  - intros [Ha Hrest]. apply evolves_trans with a; [done | by apply IH].
Qed.

Lemma generate_evolves random fuel start r r' :
  masks4 (maze r) →
  final (generate random fuel start r) = Some r' →
  masks4 (maze r') ∧ evolves (maze r) (maze r').
Proof.
  intros H4 Hfin.
  pose proof (advances_generate random fuel start r) as H. rewrite Hfin in H.
  destruct (H H4) as (H4' & Δ & _ & Hchain).
  split; [done | by apply chain_last in Hchain].
Qed.

Lemma reset_dims m m' :
  width m = width m' → height m = height m' → reset m = reset m'.
Proof.
  intros Hw Hh. unfold reset, resetRow, resetCell. by rewrite Hw, Hh.
Qed.

Lemma perform_dims call m m' :
  masks4 m → perform call m = Some m' →
  masks4 m' ∧ width m' = width m ∧ height m' = height m.
Proof.
  intros H4. destruct call as [ | random fuel start]; simpl.
  - intros [= <-]. split; [apply masks4_reset | done].
  - destruct (final _) as [r' | ] eqn:Hfin; [ | done]. simpl. intros [= <-].
    destruct (generate_evolves random fuel start (startRun m) r' H4 Hfin)
      as (H4' & Hw & Hh & _).
    done.
Qed.

Lemma performAll_dims calls m m' :
  masks4 m → performAll calls m = Some m' →
  masks4 m' ∧ width m' = width m ∧ height m' = height m.
Proof.
  revert m. induction calls as [ | call rest IH]; simpl; intros m H4.
  - by intros [= <-].
  - destruct (perform call m) as [m1 | ] eqn:E; [ | done]. intros Hrest.
    destruct (perform_dims call m m1 H4 E) as (H41 & Hw1 & Hh1).
    destruct (IH m1 H41 Hrest) as (H4' & Hw' & Hh').
    split; [done | split; congruence].
Qed.

(** C5. [reset] erases all prior state: after any sequence of [reset] and
    [generate] calls on a [w] by [h] maze, a further [reset] yields the
    freshly reset grid (so a second [reset] changes nothing): the
    dimensions are unchanged, and the cell at every [(x, y)] inside has
    mask 15, is unvisited and lists exactly its neighbours inside the
    grid, left, right, top, bottom. *)
Theorem reset_idempotent (w h : Z) (calls : list Call) (m : Maze) :
  performAll calls (newMaze w h) = Some m →
  reset m = reset (newMaze w h) ∧
  reset (reset m) = reset m ∧
  width (reset m) = w ∧ height (reset m) = h ∧
  ∀ c, cellAt (reset m) c =
       if decide (inb w h c)
       then Some {| cell_x := x c; cell_y := y c; walls := 15;
                    adjacentCells :=
                      (if decide (0 < x c) then [Coord (x c - 1) (y c)] else []) ++
                      (if decide (x c < w - 1) then [Coord (x c + 1) (y c)] else []) ++
                      (if decide (0 < y c) then [Coord (x c) (y c - 1)] else []) ++
                      (if decide (y c < h - 1) then [Coord (x c) (y c + 1)] else []);
                    visited := false |}
       else None.
Proof.
  intros Hcalls.
  destruct (performAll_dims calls (newMaze w h) m) as (_ & Hw & Hh); [ | done | ].
  { intros c cell. done. }
  simpl in Hw, Hh.
  split; [by apply reset_dims | ].
  split; [by apply reset_dims | ].
  split; [done | split; [done | ]].
  intros c. rewrite cellAt_reset, Hw, Hh.
  destruct (decide (inb w h c)); [ | done].
  f_equal. unfold resetCell. rewrite Hw, Hh.
  repeat case_decide; try lia; reflexivity.
Qed.

Lemma reset_idempotent_witness :
  performAll exampleCalls (newMaze 2 2) = Some exampleMaze ∧
  reset exampleMaze = reset (newMaze 2 2) ∧
  reset (reset exampleMaze) = reset exampleMaze ∧
  width (reset exampleMaze) = 2 ∧ height (reset exampleMaze) = 2 ∧
  ∀ c, cellAt (reset exampleMaze) c =
       if decide (inb 2 2 c)
       then Some {| cell_x := x c; cell_y := y c; walls := 15;
                    adjacentCells :=
                      (if decide (0 < x c) then [Coord (x c - 1) (y c)] else []) ++
                      (if decide (x c < 2 - 1) then [Coord (x c + 1) (y c)] else []) ++
                      (if decide (0 < y c) then [Coord (x c) (y c - 1)] else []) ++
                      (if decide (y c < 2 - 1) then [Coord (x c) (y c + 1)] else []);
                    visited := false |}
       else None.
Proof.
  assert (performAll exampleCalls (newMaze 2 2) = Some exampleMaze) as H
    by (vm_compute; reflexivity).
  split; [exact H | ].
  apply (reset_idempotent 2 2 exampleCalls exampleMaze). exact H.
Defined.

(** ** Out-of-range coordinates *)

Lemma generate_no_cell random fuel start r :
  cellAt (maze r) start = None →
  generate random (S fuel) start r = Throw TypeError (entered r).
Proof.
  intros Hnone. rewrite generate_S.
  rewrite (bind_Ok _ _ r tt (entered r)) by done.
  unfold bind, getCell, cellAt in *. simpl.
  destruct (cells (maze r)) as [cs | ]; [ | done].
  destruct (index cs (y start)) as [row | ]; [ | done].
  by rewrite Hnone.
Qed.

(** C6, as the code has it: a start outside the grid makes [generate]
    fail at once with a [TypeError] (raised by the assignment
    [current.visited = true] on [undefined], or by indexing the
    [undefined] row), and the grid is left as [reset] built it. *)
Theorem generate_out_of_range (w h : Z) (random : nat → nat) (fuel : nat)
    (start : Coordinate) :
  ¬ inb w h start →
  ∃ r', generate random (S fuel) start (startRun (reset (newMaze w h))) =
        Throw TypeError r' ∧
        maze r' = reset (newMaze w h) ∧ history r' = [].
Proof.
  intros Hout. exists (entered (startRun (reset (newMaze w h)))).
  split; [ | split; reflexivity].
  apply generate_no_cell. simpl.
  rewrite cellAt_reset. by rewrite decide_False.
Qed.

Lemma generate_out_of_range_witness :
  ¬ inb 3 3 (Coord (-1) 0) ∧
  ∃ r', generate zeroes 1 (Coord (-1) 0) (startRun (reset (newMaze 3 3))) =
        Throw TypeError r' ∧
        maze r' = reset (newMaze 3 3) ∧ history r' = [].
Proof.
  assert (¬ inb 3 3 (Coord (-1) 0)) as H by (unfold inb; simpl; lia).
  split; [exact H | ].
  apply (generate_out_of_range 3 3 zeroes 0 (Coord (-1) 0)). exact H.
Defined.

(** C6, as stated, fails: [generate({x: -1, y: 0})] on a reset 1 by 1
    maze throws a [TypeError], not a range error. *)
Lemma generate_out_of_range_not_RangeError :
  thrown (generate zeroes 1 (Coord (-1) 0) (startRun (reset (newMaze 1 1)))) =
  Some TypeError ∧
  thrown (generate zeroes 1 (Coord (-1) 0) (startRun (reset (newMaze 1 1)))) ≠
  Some RangeError.
Proof. split; [reflexivity | discriminate]. Qed.

(** ** Reading a wall mask *)

Lemma cellWalls_Some r c cell :
  cellAt (maze r) c = Some cell → cellWalls c r = Ok (walls cell) r.
Proof.
  intros E. unfold cellWalls.
  rewrite (bind_Ok _ _ _ _ _ (getCell_Some r c cell E)).
  by rewrite (bind_Ok _ _ _ _ _ (deref_Some r c cell E)).
Qed.

Lemma cellWalls_None r c :
  cellAt (maze r) c = None → cellWalls c r = Throw TypeError r.
Proof.
  unfold cellWalls, bind, getCell, cellAt.
  destruct (cells (maze r)) as [cs | ]; [ | done].
  destruct (index cs (y c)) as [row | ]; [ | done].
  by intros ->.
Qed.

(** A reachable maze has the cells of its reset grid, evolved. *)
Lemma reachable_evolved m : reachable m → evolves (reset m) m.
Proof.
  induction 1 as [m | random fuel coord m r' Hm IH Hfin].
  - rewrite (reset_dims (reset m) m) by done. apply evolves_refl.
  - destruct (generate_evolves random fuel coord (startRun m) r'
                (reachable_masks4 m Hm) Hfin) as [_ Hev].
    simpl in Hev. pose proof Hev as (Hw & Hh & _).
    rewrite (reset_dims (maze r') m) by done.
    by apply evolves_trans with m.
Qed.

(** C7, as the code has it: reading [cells[y][x].walls] of a maze that
    was reset (and possibly generated) yields the 4-bit mask of the cell
    for a coordinate inside the grid, and throws a [TypeError] for every
    coordinate outside it. *)
Theorem cellWalls_reads_mask (r : Run) (c : Coordinate) :
  reachable (maze r) →
  (inb (width (maze r)) (height (maze r)) c →
   ∃ mask, cellWalls c r = Ok mask r ∧
           wallsAt (maze r) c = Some mask ∧
           0 ≤ mask < 16 ∧
           ∀ s, hasWall mask (wallOf s) = wallAt (maze r) c s) ∧
  (¬ inb (width (maze r)) (height (maze r)) c →
   cellWalls c r = Throw TypeError r).
Proof.
  intros Hreach.
  pose proof (reachable_evolved _ Hreach) as (_ & _ & Hcells).
  specialize (Hcells c). rewrite cellAt_reset in Hcells.
  split; intros Hc.
  - rewrite decide_True in Hcells by done.
    destruct (cellAt (maze r) c) as [cell | ] eqn:E; [ | done].
    exists (walls cell). split; [by apply cellWalls_Some | ].
    unfold wallsAt, wallAt. rewrite E. split; [done | ].
    split; [by apply (reachable_masks4 _ Hreach c) | done].
  - rewrite decide_False in Hcells by done.
    destruct (cellAt (maze r) c) eqn:E; [done | ].
    by apply cellWalls_None.
Qed.

Lemma generated_final :
  final (generate zeroes 7 (Coord 0 0) (startRun (reset (newMaze 2 2)))) = Some generated.
Proof. vm_compute. reflexivity. Qed.

Lemma cellWalls_reads_mask_witness :
  reachable (maze generated) ∧
  (inb (width (maze generated)) (height (maze generated)) (Coord 1 1) →
   ∃ mask, cellWalls (Coord 1 1) generated = Ok mask generated ∧
           wallsAt (maze generated) (Coord 1 1) = Some mask ∧
           0 ≤ mask < 16 ∧
           ∀ s, hasWall mask (wallOf s) = wallAt (maze generated) (Coord 1 1) s) ∧
  (¬ inb (width (maze generated)) (height (maze generated)) (Coord 1 1) →
   cellWalls (Coord 1 1) generated = Throw TypeError generated).
Proof.
  assert (reachable (maze generated)) as H.
  { apply (reachable_generate zeroes 7 (Coord 0 0) (reset (newMaze 2 2)) generated).
    - apply reachable_reset.
    - apply generated_final. }
  split; [exact H | ].
  apply (cellWalls_reads_mask generated (Coord 1 1)). exact H.
Defined.

(** C7, as stated, fails: reading the mask at [{x: width, y: 0}] of a
    reset 1 by 1 maze throws a [TypeError], not a range error. *)
Lemma cellWalls_not_RangeError :
  thrown (cellWalls (Coord 1 0) (startRun (reset (newMaze 1 1)))) = Some TypeError ∧
  thrown (cellWalls (Coord 1 0) (startRun (reset (newMaze 1 1)))) ≠ Some RangeError.
Proof. split; [reflexivity | discriminate]. Qed.

(** ** Determinism *)

Lemma bind_ext {A B : Type} (m m' : M A) (k k' : A → M B) r :
  m r = m' r → (∀ a r1, k a r1 = k' a r1) → bind m k r = bind m' k' r.
Proof. intros Hm Hk. unfold bind. rewrite Hm. destruct (m' r); auto. Qed.

(** [generate] depends on the random source only through the values it
    draws. *)
Lemma generate_ext (random random' : nat → nat) (fuel : nat) :
  (∀ k, random k = random' k) →
  (∀ coord r, generate random fuel coord r = generate random' fuel coord r) ∧
  (∀ coord current adjacents r,
      generate_while random fuel coord current adjacents r =
      generate_while random' fuel coord current adjacents r).
Proof.
  intros Hsame. induction fuel as [ | fuel [IHg IHw]].
  - split; [done | ]. by intros coord current [ | a adjacents] r.
  - split.
    + intros coord r. rewrite !generate_S.
      repeat (apply bind_ext; [try done | intros; try done]).
    + intros coord current [ | a adjacents] r; [done | ].
      rewrite !generate_while_S by done.
      apply bind_ext.
      { unfold randomIndex. by rewrite Hsame. }
      intros i r1.
      repeat (apply bind_ext; [try done | intros; try done]).
Qed.

(** C8. With a random source that always picks index 0,
    [generate({x: 0, y: 0})] on a reset 2 by 2 grid always ends in the same
    state: it breaks the right wall of (0,0) towards (1,0) first, goes on
    depth-first through (1,1) to (0,1), and leaves the masks 11, 12 (top
    row) and 11, 6 (bottom row). *)
Theorem generate_deterministic (random : nat → nat) :
  (∀ k, random k = 0%nat) →
  ∃ r', (∀ fuel, (7 ≤ fuel)%nat →
                 generate random fuel (Coord 0 0) (startRun (reset (newMaze 2 2))) = Ok tt r') ∧
        map op (history r') =
        [ OpVisit (Coord 0 0);
          OpBreak (Coord 0 0) (Coord 1 0) WALL_RIGHT;
          OpVisit (Coord 1 0);
          OpBreak (Coord 1 0) (Coord 1 1) WALL_BOTTOM;
          OpVisit (Coord 1 1);
          OpBreak (Coord 1 1) (Coord 0 1) WALL_LEFT;
          OpVisit (Coord 0 1) ] ∧
        wallsAt (maze r') <$> [Coord 0 0; Coord 1 0; Coord 0 1; Coord 1 1] =
        [Some 11; Some 12; Some 11; Some 6].
Proof.
  intros Hzero. exists generated. split; [ | split; vm_compute; reflexivity].
  intros fuel Hfuel.
  rewrite (proj1 (generate_ext random zeroes fuel Hzero)).
  assert (generate zeroes 7 (Coord 0 0) (startRun (reset (newMaze 2 2))) = Ok tt generated)
    as H7 by (vm_compute; reflexivity).
  rewrite <- H7. apply generate_fuel_le; [done | by rewrite H7].
Qed.

Lemma generate_deterministic_witness :
  (∀ k, zeroes k = 0%nat) ∧
  ∃ r', (∀ fuel, (7 ≤ fuel)%nat →
                 generate zeroes fuel (Coord 0 0) (startRun (reset (newMaze 2 2))) = Ok tt r') ∧
        map op (history r') =
        [ OpVisit (Coord 0 0);
          OpBreak (Coord 0 0) (Coord 1 0) WALL_RIGHT;
          OpVisit (Coord 1 0);
          OpBreak (Coord 1 0) (Coord 1 1) WALL_BOTTOM;
          OpVisit (Coord 1 1);
          OpBreak (Coord 1 1) (Coord 0 1) WALL_LEFT;
          OpVisit (Coord 0 1) ] ∧
        wallsAt (maze r') <$> [Coord 0 0; Coord 1 0; Coord 0 1; Coord 1 1] =
        [Some 11; Some 12; Some 11; Some 6].
Proof.
  assert (∀ k, zeroes k = 0%nat) as H by reflexivity.
  split; [exact H | ].
  apply (generate_deterministic zeroes). exact H.
Defined.

(** ** Monotonicity *)

(** C10. Generation only removes structure.  From any state whose masks
    are 4-bit values (every state that [reset] and [generate] can reach
    is one), the states that [generate] goes through, one per mutation and
    up to the state it returns or throws in, each evolve from the one
    before: no wall bit that is cleared gets set, no visited flag goes
    back to false, and [x], [y] and the adjacency list of every cell stay
    as they are.  The same holds for one [breakCellWalls]. *)
Theorem generation_only_removes :
  (∀ m, reachable m → masks4 m) ∧
  (∀ random fuel coord r r',
      masks4 (maze r) →
      final (generate random fuel coord r) = Some r' →
      ∃ Δ, history r' = history r ++ Δ ∧
           chain evolves (maze r) (map after Δ ++ [maze r'])) ∧
  (∀ a b s r r',
      masks4 (maze r) →
      final (breakCellWalls a b (wallOf s) r) = Some r' →
      evolves (maze r) (maze r')).
Proof.
  split; [apply reachable_masks4 | split].
  - intros random fuel coord r r' H4 Hfin.
    pose proof (advances_generate random fuel coord r) as H. rewrite Hfin in H.
    by destruct (H H4) as (_ & Δ & ? & ?); exists Δ.
  - intros a b s r r' H4 Hfin.
    pose proof (advances_breakCellWalls a b s r) as H. rewrite Hfin in H.
    destruct (H H4) as (_ & Δ & _ & Hchain). by apply chain_last in Hchain.
Qed.

Lemma generation_only_removes_witness :
  masks4 (reset (newMaze 2 2)) ∧
  ∃ Δ, history generated = history (startRun (reset (newMaze 2 2))) ++ Δ ∧
       chain evolves (maze (startRun (reset (newMaze 2 2))))
             (map after Δ ++ [maze generated]).
Proof.
  assert (masks4 (reset (newMaze 2 2))) as H.
  { apply (proj1 generation_only_removes). apply reachable_reset. }
  split; [exact H | ].
  apply (proj1 (proj2 generation_only_removes) zeroes 7%nat (Coord 0 0)
           (startRun (reset (newMaze 2 2))) generated H).
  apply generated_final.
Defined.

(** * Further properties of the code *)

(** ** What every step of a generation preserves *)

(** A property of the run that the three kinds of step of [generate] keep
    (entering and marking a cell; drawing a neighbour and breaking the wall
    towards it; returning) holds when [generate] returns.  The steps are
    taken in states of the kind the traversal is in: consistent, the cell
    being left visited and the one being entered not, unvisited cells
    with their four walls. *)
Section Preserved.

Variables (w h : Z) (random : nat → nat).
Variable P : Run → Prop.

Hypothesis P_call : ∀ c r,
  consistent w h (maze r) → inb w h c → vis (maze r) c = false →
  P r → P (marked c (entered r)).

Hypothesis P_break : ∀ c s r,
  consistent w h (maze r) → sealedExcept w h (maze r) nowhere →
  inb w h c → inb w h (towards c s) →
  vis (maze r) c = true → vis (maze r) (towards c s) = false →
  P r → P (brokeWall c s (drew r)).

Hypothesis P_return : ∀ r, P r → P (returned r).

Lemma generate_preserves (fuel : nat) :
  (∀ c r r',
      consistent w h (maze r) → sealedExcept w h (maze r) (eq c) → inb w h c →
      vis (maze r) c = false → (frames r ≤ visitedCount w h (maze r))%nat →
      (2 * (Z.to_nat w * Z.to_nat h - visitedCount w h (maze r)) ≤ S fuel)%nat →
      P r → generate random fuel c r = Ok tt r' → P r') ∧
  (∀ c r r',
      consistent w h (maze r) → sealedExcept w h (maze r) nowhere → inb w h c →
      vis (maze r) c = true → (frames r ≤ visitedCount w h (maze r))%nat →
      (2 * (Z.to_nat w * Z.to_nat h - visitedCount w h (maze r)) ≤ fuel)%nat →
      P r →
      generate_while random fuel c (Some c)
        (unvisitedAmong (maze r) (neighbours w h c)) r = Ok tt r' →
      P r').
Proof.
  induction fuel as [ | fuel [IHg IHw]].
  - split; [by intros | ].
    intros c r r' _ _ _ _ _ _ Hp.
    destruct (unvisitedAmong (maze r) (neighbours w h c)); simpl; [ | done].
    by intros [= <-].
  - split.
    + intros c r r' Hcons Hsealed Hc Hv Hframes Hfuel Hp Hrun.
      pose proof Hcons as [Hwf _].
      pose proof Hwf as (_ & _ & _ & Hcells).
      destruct (Hcells c Hc) as (cell & E & _).
      pose proof (visitedCount_visit w h _ c Hwf Hc Hv) as Hcount.
      assert (vis (maze (marked c (entered r))) c = true) as Hv1.
      { simpl. rewrite vis_visit by eauto. by rewrite bool_decide_eq_true_2. }
      destruct (proj2 (generate_grows w h random fuel) c (marked c (entered r)))
        as (r3 & Hrun3 & _).
      { by apply consistent_visit. }
      { by apply sealed_visit. }
      { done. }
      { done. }
      { simpl. lia. }
      { simpl. lia. }
      rewrite generate_S in Hrun.
      rewrite (bind_Ok _ _ r tt (entered r)) in Hrun by done.
      rewrite (bind_Ok _ _ _ _ _ (getCell_Some (entered r) c cell E)) in Hrun.
      rewrite (bind_Ok _ _ (entered r) tt (marked c (entered r))) in Hrun by done.
      rewrite (bind_Ok _ _ _ _ _
                 (getUnvisitedAdjacents_wellFormed w h (marked c (entered r)) c
                    (wellFormed_visit w h c _ Hwf) Hc)) in Hrun.
      rewrite (bind_Ok _ _ _ _ _ Hrun3) in Hrun.
      injection Hrun as <-. apply P_return.
      apply (IHw c (marked c (entered r)) r3); try done.
      * by apply consistent_visit.
      * by apply sealed_visit.
      * simpl. lia.
      * simpl. lia.
      * by apply P_call.
    + intros c r r' Hcons Hsealed Hc Hv Hframes Hfuel Hp Hrun.
      pose proof Hcons as [Hwf _].
      destruct (unvisitedAmong (maze r) (neighbours w h c)) as [ | n0 rest] eqn:Eadj.
      { simpl in Hrun. by injection Hrun as <-. }
      rewrite <- Eadj in Hrun.
      set (adjacents := unvisitedAmong (maze r) (neighbours w h c)) in *.
      set (i := (random (draws r) mod length adjacents)%nat).
      assert (i < length adjacents)%nat as Hi.
      { apply Nat.mod_upper_bound. rewrite Eadj. simpl. lia. }
      destruct (lookup_lt_is_Some_2 adjacents i Hi) as [next Hnext].
      assert (next ∈ adjacents) as Hin by (by apply list_elem_of_lookup_2 in Hnext).
      apply list_elem_of_filter in Hin as [Hvn Hin].
      apply (elem_of_neighbours w h c next Hc) in Hin as [[s ->] Hn].
      pose proof Hwf as (_ & _ & _ & Hcells).
      destruct (Hcells _ Hn) as (celln & En & _).
      assert (consistent w h (maze (brokeWall c s (drew r)))) as Hcons1
        by (by apply consistent_broken).
      assert (sealedExcept w h (maze (brokeWall c s (drew r))) (eq (towards c s)))
        as Hsealed1 by (by apply sealed_broken).
      assert (vis (maze (brokeWall c s (drew r))) (towards c s) = false) as Hvn1
        by (simpl; by rewrite vis_broken).
      assert (frames (brokeWall c s (drew r)) ≤
              visitedCount w h (maze (brokeWall c s (drew r))))%nat as Hframes1
        by (simpl; by rewrite visitedCount_broken).
      assert (2 * (Z.to_nat w * Z.to_nat h -
                   visitedCount w h (maze (brokeWall c s (drew r)))) ≤ S fuel)%nat
        as Hfuel1 by (simpl; rewrite visitedCount_broken; lia).
      destruct (proj1 (generate_grows w h random fuel) (towards c s)
                  (brokeWall c s (drew r)) Hcons1 Hsealed1 Hn Hvn1 Hframes1 Hfuel1)
        as (r2 & Hrun2 & Hgrown2).
      pose proof Hgrown2 as [Gc Gs Gv _ _ _ Gk Gf _ _ _]. simpl in Gk, Gf, Gv.
      rewrite visitedCount_broken in Gk.
      rewrite generate_while_S in Hrun by (by rewrite Eadj).
      rewrite (bind_Ok _ _ r i (drew r)) in Hrun by done.
      unfold element in Hrun. rewrite Hnext in Hrun.
      rewrite (bind_Ok _ _ (drew r) (towards c s) (drew r)) in Hrun by done.
      rewrite (bind_Ok _ _ _ _ _ (getCell_Some (drew r) (towards c s) celln En)) in Hrun.
      rewrite direction_tests in Hrun.
      rewrite (bind_Ok _ _ _ _ _ Hrun2) in Hrun.
      rewrite (bind_Ok _ _ _ _ _
                 (getUnvisitedAdjacents_wellFormed w h r2 c (proj1 Gc) Hc)) in Hrun.
      apply (IHw c r2 r'); try done.
      * apply Gv. by rewrite vis_broken.
      * lia.
      * lia.
      * apply (IHg (towards c s) (brokeWall c s (drew r)) r2); try done.
        by apply P_break.
Qed.

End Preserved.

(** The same, for the run from a freshly reset maze. *)
Lemma generate_preserves_from_reset (w h : Z) (random : nat → nat) (P : Run → Prop)
    (start : Coordinate) (fuel : nat) (r' : Run) :
  (∀ c r, consistent w h (maze r) → inb w h c → vis (maze r) c = false →
          P r → P (marked c (entered r))) →
  (∀ c s r, consistent w h (maze r) → sealedExcept w h (maze r) nowhere →
            inb w h c → inb w h (towards c s) →
            vis (maze r) c = true → vis (maze r) (towards c s) = false →
            P r → P (brokeWall c s (drew r))) →
  (∀ r, P r → P (returned r)) →
  inb w h start →
  P (startRun (reset (newMaze w h))) →
  generate random fuel start (startRun (reset (newMaze w h))) = Ok tt r' →
  P r'.
Proof.
  intros Hcall Hbreak Hreturn Hstart Hp Hrun.
  set (big := Nat.max fuel (2 * (Z.to_nat w * Z.to_nat h))).
  assert (generate random big start (startRun (reset (newMaze w h))) = Ok tt r') as Hbig.
  { rewrite <- Hrun. apply generate_fuel_le; [lia | by rewrite Hrun]. }
  apply (proj1 (generate_preserves w h random P Hcall Hbreak Hreturn big)
           start (startRun (reset (newMaze w h))) r'); simpl; try done.
  - apply (consistent_reset (newMaze w h)).
  - intros d s Hd _ _. apply wallAt_reset.
  - apply vis_reset.
  - lia.
  - lia.
Qed.
(** ** The outer walls *)




(** ** No cycles *)

Lemma walk_app m c l1 l2 :
  walk m c (l1 ++ l2) ↔ walk m c l1 ∧ walk m (endpoint c l1) l2.
Proof.
  revert c. induction l1 as [ | a l1 IH]; intros c; simpl; [tauto | ].
  rewrite IH. unfold endpoint. simpl. tauto.
Qed.

Lemma endpoint_app c l1 l2 : endpoint c (l1 ++ l2) = endpoint (endpoint c l1) l2.
Proof. unfold endpoint. apply fold_left_app. Qed.

Lemma reduced_tail a l : reduced (a :: l) → reduced l.
Proof. simpl. tauto. Qed.

Lemma reduced_app_l l1 l2 : reduced (l1 ++ l2) → reduced l1.
Proof.
  induction l1 as [ | a l1 IH]; [done | ].
  simpl. intros [Hhead Hrest]. split; [ | by apply IH].
  destruct l1; [done | done].
Qed.

Lemma interior_snoc c l b : interior c (l ++ [b]) = visits c l.
Proof.
  revert c. induction l as [ | a l IH]; intros c; [done | ].
  simpl. rewrite <- IH. by destruct l.
Qed.

Lemma visits_split c l x :
  x ∈ visits c l → x ∈ interior c l ∨ x = endpoint c l.
Proof.
  revert c. induction l as [ | a l IH]; intros c; simpl.
  - by intros ?%elem_of_nil.
  - intros [-> | Hx]%elem_of_cons.
    + destruct l; [by right | left; apply list_elem_of_here].
    + destruct (IH _ Hx) as [Hin | ->].
      * left. destruct l; [by apply elem_of_nil in Hin | by apply list_elem_of_further].
      * by right.
Qed.

Lemma walk_same m m' c l :
  (∀ d s, passage m' d s = passage m d s) → walk m' c l → walk m c l.
Proof.
  intros Hsame. revert c. induction l as [ | a l IH]; intros c; [done | ].
  simpl. rewrite Hsame. intros [? ?]. auto.
Qed.

Lemma acyclic_reset m : acyclic (reset m).
Proof.
  intros c [ | a l] (Hne & Hwalk & _); [done | ].
  destruct Hwalk as [Hp _]. unfold passage in Hp. by rewrite wallAt_reset in Hp.
Qed.

Lemma acyclic_visit c m : acyclic m → acyclic (alterCell setVisited c m).
Proof.
  intros H p l (Hne & Hwalk & Hend & Hred). apply (H p l).
  split; [done | split; [ | done]].
  revert Hwalk. apply walk_same. intros d s. unfold passage. by rewrite !wallAt_visit.
Qed.

(** Breaking the wall towards a cell that has its four walls adds no
    cycle: the cell becomes a dead end. *)
Section DeadEnd.

Variables (w h : Z) (c : Coordinate) (s : Side) (m : Maze).
Hypothesis Hwf : wellFormed w h m.
Hypothesis Hc : inb w h c.
Hypothesis Hn : inb w h (towards c s).
Hypothesis Hwalls : ∀ t, wallAt m (towards c s) t = true.

Lemma dead_end_wall t : wallAt (broken c s m) (towards c s) t = false → t = opp s.
Proof.
  rewrite (wallAt_broken w h) by done. rewrite Hwalls. simpl.
  intros Hsw%negb_false_iff%bool_decide_eq_true.
  destruct Hsw as [[E _] | [_ E]]; [ | done].
  by destruct (towards_ne c s).
Qed.

Lemma dead_end_pass p a b rest :
  walk (broken c s m) p (a :: b :: rest) → b ≠ opp a → towards p a ≠ towards c s.
Proof.
  intros (Hpa & Hpb & _) Hturn Hat.
  unfold passage in Hpa, Hpb. rewrite Hat in Hpa, Hpb.
  apply andb_true_iff in Hpa as [_ Hin%negb_true_iff].
  apply andb_true_iff in Hpb as [Hout%negb_true_iff _].
  apply dead_end_wall in Hin, Hout.
  apply Hturn. rewrite Hout, <- Hin. done.
Qed.

Lemma dead_end_interior p l :
  walk (broken c s m) p l → reduced l → towards c s ∉ interior p l.
Proof.
  revert p. induction l as [ | a l IH]; intros p Hwalk Hred.
  - apply not_elem_of_nil.
  - destruct l as [ | b rest]; [apply not_elem_of_nil | ].
    change (interior p (a :: b :: rest))
      with (towards p a :: interior (towards p a) (b :: rest)).
    intros [Hat | Hin]%elem_of_cons.
    + apply (dead_end_pass p a b rest Hwalk); [apply Hred | done].
    + apply (IH (towards p a)); [apply Hwalk | by apply reduced_tail in Hred | done].
Qed.

Lemma dead_end_avoid p l :
  walk (broken c s m) p l → p ≠ towards c s → towards c s ∉ visits p l →
  walk m p l.
Proof.
  revert p. induction l as [ | a l IH]; intros p Hwalk Hp Hvisits; [done | ].
  destruct Hwalk as [Hpa Hrest]. simpl in Hvisits.
  apply not_elem_of_cons in Hvisits as [Hnext Hvisits].
  split.
  - rewrite (passage_broken w h) in Hpa by done.
    apply orb_true_iff in Hpa as [? | Hsw%bool_decide_eq_true]; [done | ].
    destruct Hsw as [[-> ->] | [E _]]; [done | by destruct Hp].
  - apply IH; [done | by intros ? | done].
Qed.

Lemma acyclic_broken : acyclic m → acyclic (broken c s m).
Proof.
  intros Hacyclic p l (Hne & Hwalk & Hend & Hred).
  pose proof (dead_end_interior p l Hwalk Hred) as Hinterior.
  destruct (decide (p = towards c s)) as [-> | Hp].
  - (* the walk leaves the dead end and must come back into it *)
    destruct l as [ | a l]; [done | ].
    pose proof Hwalk as [Hpa Hrest].
    assert (a = opp s) as ->.
    { apply dead_end_wall. unfold passage in Hpa.
      by apply andb_true_iff in Hpa as [?%negb_true_iff _]. }
    rewrite towards_back in Hrest.
    unfold endpoint in Hend. simpl in Hend. rewrite towards_back in Hend.
    fold (endpoint c l) in Hend.
    destruct l as [ | b0 l0] using rev_ind.
    { unfold endpoint in Hend. simpl in Hend. by destruct (towards_ne c s). }
    clear IHl0.
    apply walk_app in Hrest as [Hmid [Hlast _]].
    rewrite endpoint_app in Hend. unfold endpoint at 1 in Hend. simpl in Hend.
    assert (b0 = s) as ->.
    { unfold passage in Hlast.
      apply andb_true_iff in Hlast as [_ Hin%negb_true_iff].
      rewrite Hend in Hin. apply dead_end_wall in Hin.
      destruct b0, s; done || discriminate. }
    apply towards_inj in Hend.
    destruct (decide (l0 = [])) as [-> | Hmidne].
    { destruct Hred as [Hturn _]. simpl in Hturn. by rewrite opp_opp in Hturn. }
    apply (Hacyclic c l0).
    split; [done | split; [ | split; [done | ]]].
    + apply dead_end_avoid; [done | apply not_eq_sym, towards_ne | ].
      rewrite <- (interior_snoc c l0 s). intros Hin. apply Hinterior.
      destruct l0 as [ | x l0]; [done | ].
      change (interior (towards c s) (opp s :: (x :: l0) ++ [s]))
        with (towards (towards c s) (opp s) ::
              interior (towards (towards c s) (opp s)) ((x :: l0) ++ [s])).
      rewrite towards_back. by apply list_elem_of_further.
    + apply reduced_tail in Hred. by apply reduced_app_l in Hred.
  - (* the walk never comes to the dead end *)
    apply (Hacyclic p l).
    split; [done | split; [ | done]].
    apply dead_end_avoid; [done | done | ].
    intros [Hin | Hlast]%visits_split; [done | ].
    rewrite Hend in Hlast. by destruct Hp.
Qed.

End DeadEnd.
(** X1. No cycles: after [generate] on a reset grid there is no closed
    walk through broken walls that never turns straight back, whatever
    the random choices.  With reachability (C1) the maze is perfect. *)
Theorem generate_no_cycle (w h : Z) (random : nat → nat) (start : Coordinate) :
  inb w h start →
  ∃ r', (∀ fuel, (2 * (Z.to_nat w * Z.to_nat h) ≤ fuel)%nat →
                 generate random fuel start (startRun (reset (newMaze w h))) = Ok tt r') ∧
        acyclic (maze r').
Proof.
  intros Hstart.
  destruct (generate_from_reset w h random start Hstart) as (r' & Hrun & _).
  exists r'. split; [done | ].
  apply (generate_preserves_from_reset w h random (fun r => acyclic (maze r)) start
           (2 * (Z.to_nat w * Z.to_nat h))%nat r'); [ | | | done | | by apply Hrun].
  - intros c r _ _ _. apply acyclic_visit.
  - intros c s r [Hwf _] Hsealed Hc Hn _ Hvn. simpl.
    apply (acyclic_broken w h); [done | done | done | ].
    intros t. by apply Hsealed; [ | intros [] | ].
  - by intros r.
  - simpl. apply acyclic_reset.
Qed.

Lemma generate_no_cycle_witness :
  inb 3 3 (Coord 1 1) ∧
  ∃ r', (∀ fuel, (2 * (Z.to_nat 3 * Z.to_nat 3) ≤ fuel)%nat →
                 generate zeroes fuel (Coord 1 1) (startRun (reset (newMaze 3 3))) = Ok tt r') ∧
        acyclic (maze r').
Proof.
  assert (inb 3 3 (Coord 1 1)) as H by (unfold inb; simpl; lia).
  split; [exact H | ].
  apply (generate_no_cycle 3 3 zeroes (Coord 1 1)). exact H.
Defined.



(** ** How much a generation does *)

Lemma generate_from_reset_counts w h random start r' :
  inb w h start →
  (∀ fuel, (2 * (Z.to_nat w * Z.to_nat h) ≤ fuel)%nat →
           generate random fuel start (startRun (reset (newMaze w h))) = Ok tt r') →
  Z.of_nat (visitedCount w h (maze r')) = w * h ∧
  Z.of_nat (brokenPairs w h (maze r')) = w * h - 1.
Proof.
  intros Hstart Hrun.
  destruct (generate_from_reset w h random start Hstart) as (r'' & Hrun' & Hgrown & Hall).
  assert (r'' = r') as ->.
  { specialize (Hrun _ (Nat.le_refl _)). specialize (Hrun' _ (Nat.le_refl _)). congruence. }
  destruct Hgrown as [_ _ _ _ _ Gp _ _ _ _ _]. simpl in Gp.
  rewrite visitedCount_reset, brokenPairs_reset in Gp.
  assert (visitedCount w h (maze r') = (Z.to_nat w * Z.to_nat h)%nat) as Hfull.
  { unfold visitedCount. rewrite <- length_allCoords. apply tally_all.
    intros c Hc. apply Hall. by apply elem_of_allCoords. }
  destruct Hstart as [Hx Hy].
  assert (Z.of_nat (Z.to_nat w * Z.to_nat h) = w * h) as <-
    by (rewrite Nat2Z.inj_mul, !Z2Nat.id; lia).
  lia.
Qed.

(** X3. Work done: a generation on a reset [w] by [h] grid calls
    [Math.random] exactly [w * h - 1] times, once per wall it breaks, and
    performs [2 * w * h - 1] mutations in all (one marking per cell, one
    [breakCellWalls] per cell but the first). *)
Theorem generate_work (w h : Z) (random : nat → nat) (start : Coordinate) :
  inb w h start →
  ∃ r', (∀ fuel, (2 * (Z.to_nat w * Z.to_nat h) ≤ fuel)%nat →
                 generate random fuel start (startRun (reset (newMaze w h))) = Ok tt r') ∧
        Z.of_nat (draws r') = w * h - 1 ∧
        Z.of_nat (length (history r')) = 2 * (w * h) - 1.
Proof.
  intros Hstart.
  destruct (generate_from_reset w h random start Hstart) as (r' & Hrun & _).
  exists r'. split; [done | ].
  destruct (generate_from_reset_counts w h random start r' Hstart Hrun) as [Hvis Hpairs].
  assert (draws r' = brokenPairs w h (maze r') ∧
          length (history r') =
          (visitedCount w h (maze r') + brokenPairs w h (maze r'))%nat) as [Hd Hl];
    [ | lia].
  apply (generate_preserves_from_reset w h random
           (fun r => draws r = brokenPairs w h (maze r) ∧
                     length (history r) =
                     (visitedCount w h (maze r) + brokenPairs w h (maze r))%nat)
           start (2 * (Z.to_nat w * Z.to_nat h))%nat r'); [ | | | done | | by apply Hrun].
  - intros c r [Hwf _] Hc Hv [Hd Hl]. simpl.
    rewrite brokenPairs_visit, (visitedCount_visit w h) by done.
    rewrite length_app. simpl. lia.
  - intros c s r [Hwf _] Hsealed Hc Hn _ Hvn [Hd Hl]. simpl.
    rewrite visitedCount_broken, (brokenPairs_broken w h); [ | done | done | done | ].
    + rewrite length_app. simpl. lia.
    + unfold passage. rewrite (Hsealed (towards c s) (opp s)) by (done || by intros []).
      apply andb_false_r.
  - by intros r.
  - simpl. by rewrite visitedCount_reset, brokenPairs_reset.
Qed.

Lemma generate_work_witness :
  inb 3 2 (Coord 0 1) ∧
  ∃ r', (∀ fuel, (2 * (Z.to_nat 3 * Z.to_nat 2) ≤ fuel)%nat →
                 generate zeroes fuel (Coord 0 1) (startRun (reset (newMaze 3 2))) = Ok tt r') ∧
        Z.of_nat (draws r') = 3 * 2 - 1 ∧
        Z.of_nat (length (history r')) = 2 * (3 * 2) - 1.
Proof.
  assert (inb 3 2 (Coord 0 1)) as H by (unfold inb; simpl; lia).
  split; [exact H | ].
  apply (generate_work 3 2 zeroes (Coord 0 1)). exact H.
Defined.

(** ** Generating again, and generating too early *)

Lemma list_alter_fixed {A : Type} (f : A → A) (l : list A) (i : nat) (a : A) :
  l !! i = Some a → f a = a → alter f i l = l.
Proof.
  intros Hi Hf. apply list_eq. intros j.
  destruct (decide (i = j)) as [<- | Hne].
  - rewrite list_lookup_alter_eq, Hi. simpl. by rewrite Hf.
  - by rewrite list_lookup_alter_ne.
Qed.

Lemma alterCell_fixed f p m cell :
  cellAt m p = Some cell → f cell = cell → alterCell f p m = m.
Proof.
  unfold cellAt, alterCell, index, alterAt.
  destruct m as [mw mh [cs | ]]; simpl; [ | done].
  destruct (decide (0 ≤ y p)); [ | done].
  destruct (cs !! Z.to_nat (y p)) as [row | ] eqn:Erow; [ | done].
  destruct (decide (0 ≤ x p)); [ | done].
  intros Hcell Hf. do 2 f_equal.
  apply (list_alter_fixed _ _ _ row); [done | ].
  by apply (list_alter_fixed _ _ _ cell).
Qed.

Lemma unvisitedAmong_none m l :
  (∀ n, n ∈ l → vis m n = true) → unvisitedAmong m l = [].
Proof.
  intros H. unfold unvisitedAmong.
  induction l as [ | a l IH]; [done | ].
  rewrite filter_cons_False.
  - apply IH. intros n Hn. apply H. by apply list_elem_of_further.
  - rewrite (H a) by apply list_elem_of_here. done.
Qed.

(** On a grid whose cells are all visited, [generate] marks the start
    again and returns: no neighbour is left to go to. *)
Lemma generate_finished w h random fuel c r :
  wellFormed w h (maze r) → inb w h c →
  (∀ d, inb w h d → vis (maze r) d = true) →
  generate random (S fuel) c r = Ok tt (returned (marked c (entered r))) ∧
  maze (returned (marked c (entered r))) = maze r.
Proof.
  intros Hwf Hc Hall.
  pose proof Hwf as (_ & _ & _ & Hcells).
  destruct (Hcells c Hc) as (cell & E & _).
  assert (alterCell setVisited c (maze r) = maze r) as Hsame.
  { apply (alterCell_fixed _ _ _ cell); [done | ].
    specialize (Hall c Hc). unfold vis in Hall. rewrite E in Hall.
    destruct cell as [? ? ? ? v]; simpl in *. by rewrite Hall. }
  split; [ | done].
  rewrite generate_S.
  rewrite (bind_Ok _ _ r tt (entered r)) by done.
  rewrite (bind_Ok _ _ _ _ _ (getCell_Some (entered r) c cell E)).
  rewrite (bind_Ok _ _ (entered r) tt (marked c (entered r))) by done.
  rewrite (bind_Ok _ _ _ _ _
             (getUnvisitedAdjacents_wellFormed w h (marked c (entered r)) c
                (wellFormed_visit w h c _ Hwf) Hc)).
  rewrite unvisitedAmong_none.
  - by destruct fuel.
  - intros n Hn. apply (elem_of_neighbours w h c n Hc) in Hn as [_ Hn].
    simpl. rewrite Hsame. by apply Hall.
Qed.

(** X4. A second [generate] without a [reset] in between changes
    nothing: after a generation every cell is visited, and [generate] from
    any start inside the grid then returns at once, leaves the maze as it
    is and calls [Math.random] not once. *)
Theorem generate_again_changes_nothing (w h : Z) (random random' : nat → nat)
    (start again : Coordinate) (fuel' : nat) :
  inb w h start → inb w h again →
  ∃ r1 r2,
    (∀ fuel, (2 * (Z.to_nat w * Z.to_nat h) ≤ fuel)%nat →
             generate random fuel start (startRun (reset (newMaze w h))) = Ok tt r1) ∧
    (∀ c, inb w h c → vis (maze r1) c = true) ∧
    generate random' (S fuel') again r1 = Ok tt r2 ∧
    maze r2 = maze r1 ∧
    draws r2 = draws r1.
Proof.
  intros Hstart Hagain.
  destruct (generate_from_reset w h random start Hstart) as (r1 & Hrun & Hgrown & Hall).
  destruct Hgrown as [[Hwf _] _ _ _ _ _ _ _ _ _ _].
  destruct (generate_finished w h random' fuel' again r1 Hwf Hagain Hall) as [Hrun2 Hsame].
  exists r1, (returned (marked again (entered r1))).
  split; [done | split; [done | split; [done | split; [done | done]]]].
Qed.

Lemma generate_again_changes_nothing_witness :
  (inb 2 2 (Coord 0 0) ∧ inb 2 2 (Coord 1 1)) ∧
  ∃ r1 r2,
    (∀ fuel, (2 * (Z.to_nat 2 * Z.to_nat 2) ≤ fuel)%nat →
             generate zeroes fuel (Coord 0 0) (startRun (reset (newMaze 2 2))) = Ok tt r1) ∧
    (∀ c, inb 2 2 c → vis (maze r1) c = true) ∧
    generate zeroes 1 (Coord 1 1) r1 = Ok tt r2 ∧
    maze r2 = maze r1 ∧
    draws r2 = draws r1.
Proof.
  assert (inb 2 2 (Coord 0 0) ∧ inb 2 2 (Coord 1 1)) as H
    by (unfold inb; simpl; lia).
  split; [exact H | ].
  apply (generate_again_changes_nothing 2 2 zeroes zeroes (Coord 0 0) (Coord 1 1) 0);
    apply H.
Defined.

(** X5. A maze that was constructed but never reset has no grid:
    [generate] on it fails with a [TypeError] for every start, and the
    maze still has no cells. *)
Theorem generate_before_reset (w h : Z) (random : nat → nat) (fuel : nat)
    (start : Coordinate) :
  ∃ r', generate random (S fuel) start (startRun (newMaze w h)) = Throw TypeError r' ∧
        maze r' = newMaze w h ∧ history r' = [].
Proof.
  exists (entered (startRun (newMaze w h))).
  split; [ | split; reflexivity].
  by apply generate_no_cell.
Qed.
(** ** Reading the neighbours *)

Lemma reachable_wellFormed m : reachable m → wellFormed (width m) (height m) m.
Proof.
  intros Hreach.
  pose proof (reachable_evolved m Hreach) as (_ & _ & Hcells).
  split; [done | split; [done | split; [by apply reachable_masks4 | ]]].
  intros c Hc. specialize (Hcells c).
  rewrite cellAt_reset, decide_True in Hcells by done.
  destruct (cellAt m c) as [cell | ]; [ | done].
  destruct Hcells as (Ex & Ey & Eadj & _).
  destruct (resetCell_fields m (x c) (y c)) as (Hx & Hy & _).
  exists cell. rewrite Ex, Ey, Eadj, resetCell_adjacentCells. done.
Qed.

Lemma NoDup_neighbours w h c : NoDup (neighbours w h c).
Proof.
  unfold neighbours.
  repeat case_decide; simpl;
    repeat (apply NoDup_cons; split;
            [rewrite ?elem_of_cons, ?elem_of_nil, ?coord_eq; simpl; lia | ]);
    apply NoDup_nil_2.
Qed.

Lemma length_neighbours w h c : (length (neighbours w h c) ≤ 4)%nat.
Proof. unfold neighbours. repeat case_decide; simpl; lia. Qed.

(** X6. [getUnvisitedAdjacents] on a cell of a maze that was reset (and
    possibly generated) never fails and changes nothing; it returns the
    adjacency list of the cell with the visited cells left out, in the
    same order: exactly the orthogonal neighbours inside the grid that are
    not visited, each once, at most four. *)
Theorem getUnvisitedAdjacents_unvisited_neighbours (r : Run) (c : Coordinate) :
  reachable (maze r) → inb (width (maze r)) (height (maze r)) c →
  ∃ cell,
    cellAt (maze r) c = Some cell ∧
    getUnvisitedAdjacents (Some c) r =
    Ok (filter (fun n => vis (maze r) n = false) (adjacentCells cell)) r ∧
    (∀ n, n ∈ filter (fun n => vis (maze r) n = false) (adjacentCells cell) ↔
          (∃ s, n = towards c s) ∧
          inb (width (maze r)) (height (maze r)) n ∧
          vis (maze r) n = false) ∧
    NoDup (filter (fun n => vis (maze r) n = false) (adjacentCells cell)) ∧
    (length (filter (fun n => vis (maze r) n = false) (adjacentCells cell)) ≤ 4)%nat.
Proof.
  intros Hreach Hc.
  pose proof (reachable_wellFormed _ Hreach) as Hwf.
  pose proof Hwf as (_ & _ & _ & Hcells).
  destruct (Hcells c Hc) as (cell & E & _ & _ & Eadj).
  exists cell. split; [done | ]. rewrite Eadj.
  split; [by apply getUnvisitedAdjacents_wellFormed | ].
  split; [ | split].
  - intros n. rewrite list_elem_of_filter, (elem_of_neighbours _ _ c n Hc). tauto.
  - apply NoDup_filter, NoDup_neighbours.
  - etrans; [apply length_filter | apply length_neighbours].
Qed.

Lemma getUnvisitedAdjacents_unvisited_neighbours_witness :
  (reachable (maze generated) ∧
   inb (width (maze generated)) (height (maze generated)) (Coord 0 1)) ∧
  ∃ cell,
    cellAt (maze generated) (Coord 0 1) = Some cell ∧
    getUnvisitedAdjacents (Some (Coord 0 1)) generated =
    Ok (filter (fun n => vis (maze generated) n = false) (adjacentCells cell)) generated ∧
    (∀ n, n ∈ filter (fun n => vis (maze generated) n = false) (adjacentCells cell) ↔
          (∃ s, n = towards (Coord 0 1) s) ∧
          inb (width (maze generated)) (height (maze generated)) n ∧
          vis (maze generated) n = false) ∧
    NoDup (filter (fun n => vis (maze generated) n = false) (adjacentCells cell)) ∧
    (length (filter (fun n => vis (maze generated) n = false) (adjacentCells cell)) ≤ 4)%nat.
Proof.
  assert (reachable (maze generated) ∧
          inb (width (maze generated)) (height (maze generated)) (Coord 0 1)) as H.
  { split.
    - apply (reachable_generate zeroes 7 (Coord 0 0) (reset (newMaze 2 2)) generated).
      + apply reachable_reset.
      + apply generated_final.
    - vm_compute. repeat split; congruence. }
  split; [exact H | ].
  apply (getUnvisitedAdjacents_unvisited_neighbours generated (Coord 0 1)); apply H.
Defined.

(** ** The adjacency that [reset] builds *)

Lemma towards_distance a b :
  (∃ s, b = towards a s) ↔ Z.abs (x a - x b) + Z.abs (y a - y b) = 1.
Proof.
  split.
  - intros [s ->]. destruct s; simpl; lia.
  - intros Hd.
    destruct (decide (x b = x a + 1)); [exists OnRight; apply coord_eq; simpl; lia | ].
    destruct (decide (x b = x a - 1)); [exists OnLeft; apply coord_eq; simpl; lia | ].
    destruct (decide (y b = y a + 1)); [exists OnBottom; apply coord_eq; simpl; lia | ].
    exists OnTop. apply coord_eq; simpl; lia.
Qed.

(** X7. The adjacency lists that [reset] builds describe the grid graph:
    [B] is listed by [A] exactly when the two cells are one step apart
    horizontally or vertically, hence exactly when [A] is listed by [B];
    no cell lists itself, and no list has a duplicate. *)
Theorem reset_adjacency (m : Maze) (a b : Coordinate) (cellA cellB : MazeCell) :
  cellAt (reset m) a = Some cellA →
  cellAt (reset m) b = Some cellB →
  (b ∈ adjacentCells cellA ↔ Z.abs (x a - x b) + Z.abs (y a - y b) = 1) ∧
  (b ∈ adjacentCells cellA ↔ a ∈ adjacentCells cellB) ∧
  (a ∉ adjacentCells cellA) ∧
  NoDup (adjacentCells cellA).
Proof.
  rewrite !cellAt_reset.
  destruct (decide (inb (width m) (height m) a)) as [Ha | ]; [ | done].
  destruct (decide (inb (width m) (height m) b)) as [Hb | ]; [ | done].
  intros [= <-] [= <-]. rewrite !resetCell_adjacentCells.
  assert (∀ p q, inb (width m) (height m) p → inb (width m) (height m) q →
                 (q ∈ neighbours (width m) (height m) p ↔
                  Z.abs (x p - x q) + Z.abs (y p - y q) = 1)) as Hdist.
  { intros p q Hp Hq. rewrite (elem_of_neighbours _ _ p q Hp), towards_distance. tauto. }
  split; [by apply Hdist | split; [ | split]].
  - rewrite !Hdist by done. lia.
  - rewrite Hdist by done. lia.
  - apply NoDup_neighbours.
Qed.

Lemma reset_adjacency_witness :
  (cellAt (reset (newMaze 3 2)) (Coord 1 0) = Some (resetCell (newMaze 3 2) 1 0) ∧
   cellAt (reset (newMaze 3 2)) (Coord 1 1) = Some (resetCell (newMaze 3 2) 1 1)) ∧
  (Coord 1 1 ∈ adjacentCells (resetCell (newMaze 3 2) 1 0) ↔
   Z.abs (x (Coord 1 0) - x (Coord 1 1)) + Z.abs (y (Coord 1 0) - y (Coord 1 1)) = 1) ∧
  (Coord 1 1 ∈ adjacentCells (resetCell (newMaze 3 2) 1 0) ↔
   Coord 1 0 ∈ adjacentCells (resetCell (newMaze 3 2) 1 1)) ∧
  (Coord 1 0 ∉ adjacentCells (resetCell (newMaze 3 2) 1 0)) ∧
  NoDup (adjacentCells (resetCell (newMaze 3 2) 1 0)).
Proof.
  assert (cellAt (reset (newMaze 3 2)) (Coord 1 0) = Some (resetCell (newMaze 3 2) 1 0) ∧
          cellAt (reset (newMaze 3 2)) (Coord 1 1) = Some (resetCell (newMaze 3 2) 1 1))
    as H by (split; reflexivity).
  split; [exact H | ].
  apply (reset_adjacency (newMaze 3 2) (Coord 1 0) (Coord 1 1)); apply H.
Defined.

(** ** [breakCellWalls] from the other side, and twice *)

Lemma alterAt_commute {A : Type} (f g : A → A) (i j : Z) (l : list A) :
  i ≠ j → alterAt f i (alterAt g j l) = alterAt g j (alterAt f i l).
Proof.
  intros Hne. unfold alterAt.
  destruct (decide (0 ≤ i)), (decide (0 ≤ j)); try done.
  apply list_alter_alter_ne. lia.
Qed.

Lemma alterAt_swap {A : Type} (f g : A → A) (i : Z) (l : list A) :
  (∀ a, f (g a) = g (f a)) → alterAt f i (alterAt g i l) = alterAt g i (alterAt f i l).
Proof.
  intros Hfg. unfold alterAt. destruct (decide (0 ≤ i)); [ | done].
  rewrite !list_alter_alter_eq. apply list_alter_ext; [ | done].
  intros a _. apply Hfg.
Qed.

Lemma alterCell_commute f g p q m :
  p ≠ q → alterCell f p (alterCell g q m) = alterCell g q (alterCell f p m).
Proof.
  intros Hne. unfold alterCell. simpl. f_equal.
  destruct (cells m) as [cs | ]; simpl; [ | done]. f_equal.
  destruct (decide (y p = y q)) as [Hy | Hy]; [ | by apply alterAt_commute].
  rewrite Hy. apply alterAt_swap. intros row. apply alterAt_commute.
  intros Hx. apply Hne. by apply coord_eq.
Qed.

(** X8. It does not matter from which side a wall is broken:
    [breakCellWalls(A, B, w)] and [breakCellWalls(B, A, w')], with [w'] the
    wall opposite to [w] and [B] next to [A] on side [w], both return and
    leave the same maze. *)
Theorem breakCellWalls_either_side (r : Run) (a : Coordinate) (s : Side) :
  ∃ r1 r2,
    breakCellWalls (Some a) (Some (towards a s)) (wallOf s) r = Ok tt r1 ∧
    breakCellWalls (Some (towards a s)) (Some a) (oppositeWall (wallOf s)) r = Ok tt r2 ∧
    maze r1 = maze r2.
Proof.
  exists (brokeWall a s r), (brokeWall (towards a s) (opp s) r).
  split; [apply breakCellWalls_Ok | split].
  - rewrite oppositeWall_wallOf.
    rewrite <- (towards_back a s) at 2. apply breakCellWalls_Ok.
  - simpl. unfold broken.
    rewrite towards_back, !oppositeWall_wallOf, opp_opp.
    apply alterCell_commute, towards_ne.
Qed.

Lemma list_alter_idle {A : Type} (f : A → A) (l : list A) (i : nat) :
  (∀ a, l !! i = Some a → f a = a) → alter f i l = l.
Proof.
  intros Hf. apply list_eq. intros j.
  destruct (decide (i = j)) as [<- | Hne].
  - rewrite list_lookup_alter_eq.
    destruct (l !! i) as [a | ] eqn:E; [ | done]. simpl. by rewrite Hf.
  - by rewrite list_lookup_alter_ne.
Qed.

Lemma alterCell_idle f p m :
  (∀ cell, cellAt m p = Some cell → f cell = cell) → alterCell f p m = m.
Proof.
  unfold cellAt, alterCell, index, alterAt.
  destruct m as [mw mh [cs | ]]; simpl; [ | done].
  destruct (decide (0 ≤ y p)); [ | done].
  intros Hf. do 2 f_equal.
  apply list_alter_idle. intros row Erow. rewrite Erow in Hf.
  destruct (decide (0 ≤ x p)); [ | done].
  by apply list_alter_idle.
Qed.

Lemma clearWall_cleared (s : Side) (cell : MazeCell) :
  0 ≤ walls cell < 16 → hasWall (walls cell) (wallOf s) = false →
  clearWall (wallOf s) cell = cell.
Proof.
  destruct cell as [cx cy wl adj v]. unfold clearWall. simpl. intros H Hno. f_equal.
  mask_cases wl H; destruct s; (reflexivity || discriminate Hno).
Qed.

(** X9. Breaking a wall twice is breaking it once: on a grid whose masks
    are 4-bit values, a second [breakCellWalls] with the same arguments
    leaves the maze as the first one left it. *)
Theorem breakCellWalls_twice (r : Run) (a b : Coordinate) (s : Side) :
  masks4 (maze r) →
  ∃ r1 r2,
    breakCellWalls (Some a) (Some b) (wallOf s) r = Ok tt r1 ∧
    breakCellWalls (Some a) (Some b) (wallOf s) r1 = Ok tt r2 ∧
    maze r2 = maze r1.
Proof.
  intros H4.
  destruct (breakCellWalls (Some a) (Some b) (wallOf s) r) as [[] r1 | | ] eqn:E1;
    [ | done | done].
  destruct (breakCellWalls (Some a) (Some b) (wallOf s) r1) as [[] r2 | | ] eqn:E2;
    [ | done | done].
  exists r1, r2. split; [done | split; [done | ]].
  injection E1 as <-. injection E2 as <-. simpl.
  rewrite oppositeWall_wallOf.
  set (m1 := alterCell (clearWall (wallOf (opp s))) b
               (alterCell (clearWall (wallOf s)) a (maze r))).
  assert (masks4 (alterCell (clearWall (wallOf s)) a (maze r))) as H4a
    by (by apply clearWall_step).
  assert (masks4 m1) as H41 by (by apply clearWall_step).
  assert (alterCell (clearWall (wallOf s)) a m1 = m1) as ->.
  { apply alterCell_idle. intros cell Hcell.
    apply clearWall_cleared; [by apply (H41 a) | ].
    unfold m1 in Hcell. rewrite !cellAt_alterCell in Hcell.
    destruct (cellAt (maze r) a) as [c0 | ] eqn:E0;
      [ | by repeat case_decide].
    pose proof (H4 a c0 E0) as Hr.
    rewrite (decide_True (P := a = a)) in Hcell by done.
    destruct (decide (b = a)); simpl in Hcell; injection Hcell as <-; simpl.
    - rewrite hasWall_clear by (by apply clear_range).
      rewrite hasWall_clear by done.
      rewrite (bool_decide_eq_true_2 (s = s)) by done. simpl. by rewrite andb_false_r.
    - rewrite hasWall_clear by done.
      rewrite (bool_decide_eq_true_2 (s = s)) by done. by rewrite andb_false_r. }
  apply alterCell_idle. intros cell Hcell.
  apply clearWall_cleared; [by apply (H41 b) | ].
  unfold m1 in Hcell. rewrite cellAt_alterCell, decide_True in Hcell by done.
  destruct (cellAt (alterCell (clearWall (wallOf s)) a (maze r)) b) as [c0 | ] eqn:E0;
    [ | done].
  simpl in Hcell. injection Hcell as <-. simpl.
  rewrite hasWall_clear by (by apply (H4a b)).
  rewrite (bool_decide_eq_true_2 (opp s = opp s)) by done. by rewrite andb_false_r.
Qed.

Lemma breakCellWalls_twice_witness :
  masks4 (maze twoCells) ∧
  ∃ r1 r2,
    breakCellWalls (Some (Coord 0 0)) (Some (Coord 1 0)) (wallOf OnRight) twoCells
    = Ok tt r1 ∧
    breakCellWalls (Some (Coord 0 0)) (Some (Coord 1 0)) (wallOf OnRight) r1 = Ok tt r2 ∧
    maze r2 = maze r1.
Proof.
  assert (masks4 (maze twoCells)) as H by apply masks4_reset.
  split; [exact H | ].
  apply (breakCellWalls_twice twoCells (Coord 0 0) (Coord 1 0) OnRight). exact H.
Defined.

(** ** Drawing *)

Lemma elem_of_drawCell wallSize c wl op :
  op ∈ drawCell wallSize (x c) (y c) wl ↔
  ∃ s, hasWall wl (wallOf s) = true ∧ op = wallRect wallSize c s.
Proof.
  unfold drawCell. rewrite !elem_of_app. split.
  - intros [H | [H | [H | H]]];
      [exists OnTop | exists OnRight | exists OnBottom | exists OnLeft]; simpl;
      (destruct (hasWall wl _); [ | by apply elem_of_nil in H]);
      by apply list_elem_of_singleton in H.
  - intros [s [Hs ->]].
    destruct s; simpl in Hs; rewrite Hs; simpl;
      [left | right; left | do 2 right; left | do 3 right];
      by apply list_elem_of_singleton.
Qed.

Lemma length_drawCell wallSize cx cy wl :
  length (drawCell wallSize cx cy wl) =
  ((if hasWall wl WALL_TOP then 1 else 0) + (if hasWall wl WALL_RIGHT then 1 else 0) +
   (if hasWall wl WALL_BOTTOM then 1 else 0) + (if hasWall wl WALL_LEFT then 1 else 0))%nat.
Proof.
  unfold drawCell. rewrite !length_app.
  destruct (hasWall wl WALL_TOP), (hasWall wl WALL_RIGHT),
    (hasWall wl WALL_BOTTOM), (hasWall wl WALL_LEFT); reflexivity.
Qed.

(** Where every position has a cell the loops run through, and fill one
    rectangle per standing wall. *)
Lemma drawCells_complete m wallSize coords :
  (∀ c, c ∈ coords → is_Some (cellAt m c)) →
  ∃ ops, drawCells m wallSize coords = (ops, None) ∧
         (∀ op, op ∈ ops ↔
                ∃ c s, c ∈ coords ∧ wallAt m c s = true ∧ op = wallRect wallSize c s) ∧
         length ops =
         (tally (fun c => wallAt m c OnTop) coords +
          tally (fun c => wallAt m c OnRight) coords +
          tally (fun c => wallAt m c OnBottom) coords +
          tally (fun c => wallAt m c OnLeft) coords)%nat.
Proof.
  induction coords as [ | c coords IH]; intros Hcells.
  - exists []. split; [done | split; [ | done]].
    intros op. split; [by intros ?%elem_of_nil | ].
    by intros (c & s & ?%elem_of_nil & _).
  - destruct IH as (ops & Hrun & Hmem & Hlen).
    { intros d Hd. apply Hcells. by apply list_elem_of_further. }
    destruct (Hcells c (list_elem_of_here _ _)) as [cell E].
    exists (drawCell wallSize (x c) (y c) (walls cell) ++ ops).
    assert (∀ s, wallAt m c s = hasWall (walls cell) (wallOf s)) as Hwall
      by (intros s; unfold wallAt; by rewrite E).
    split; [ | split].
    + simpl. by rewrite E, Hrun.
    + intros op. rewrite elem_of_app, elem_of_drawCell, Hmem. split.
      * intros [(s & Hs & ->) | (d & s & Hd & Hs & ->)].
        -- exists c, s. rewrite Hwall. split; [apply list_elem_of_here | done].
        -- exists d, s. split; [by apply list_elem_of_further | done].
      * intros (d & s & [-> | Hd]%elem_of_cons & Hs & ->).
        -- left. exists s. by rewrite <- Hwall.
        -- right. by exists d, s.
    + rewrite length_app, length_drawCell, Hlen. simpl.
      rewrite !Hwall. simpl. lia.
Qed.






(** ** How many rectangles *)

Lemma standing_reset w h m :
  standing w h (reset m) = (4 * (Z.to_nat w * Z.to_nat h))%nat.
Proof.
  unfold standing.
  rewrite !tally_all by (intros c _; apply wallAt_reset).
  rewrite length_allCoords. lia.
Qed.

Lemma standing_visit w h c m : standing w h (alterCell setVisited c m) = standing w h m.
Proof.
  assert (∀ s, tally (fun d => wallAt (alterCell setVisited c m) d s) (allCoords w h) =
               tally (fun d => wallAt m d s) (allCoords w h)) as Hside
    by (intros s; apply tally_ext; intros d _; apply wallAt_visit).
  unfold standing. by rewrite !Hside.
Qed.

Section StandingBroken.

Variables (w h : Z) (c : Coordinate) (s : Side) (m : Maze).
Hypothesis Hwf : wellFormed w h m.
Hypothesis Hc : inb w h c.
Hypothesis Hn : inb w h (towards c s).

Lemma standing_hit e s' :
  inb w h e → sameWall c s e s' → wallAt m e s' = true →
  (∀ d, sameWall c s d s' → d = e) →
  tally (fun d => wallAt m d s') (allCoords w h) =
  S (tally (fun d => wallAt (broken c s m) d s') (allCoords w h)).
Proof.
  intros He Hsame Hwall Honly. apply tally_flip with e.
  - apply NoDup_allCoords.
  - by apply elem_of_allCoords.
  - rewrite (wallAt_broken w h) by done.
    rewrite bool_decide_eq_true_2 by done. apply andb_false_r.
  - done.
  - intros a _ Hne. rewrite (wallAt_broken w h) by done.
    rewrite bool_decide_eq_false_2; [by rewrite andb_true_r | ].
    intros Ha. by apply Hne, Honly.
Qed.

Lemma standing_miss s' :
  s' ≠ s → s' ≠ opp s →
  tally (fun d => wallAt (broken c s m) d s') (allCoords w h) =
  tally (fun d => wallAt m d s') (allCoords w h).
Proof.
  intros H1 H2. apply tally_ext. intros d _.
  rewrite (wallAt_broken w h) by done.
  rewrite bool_decide_eq_false_2; [by rewrite andb_true_r | ].
  intros [[_ <-] | [_ <-]]; done.
Qed.

End StandingBroken.

(** Breaking a wall that stands on both sides takes two walls down. *)
Lemma standing_broken w h c s m :
  wellFormed w h m → inb w h c → inb w h (towards c s) →
  wallAt m c s = true → wallAt m (towards c s) (opp s) = true →
  (standing w h (broken c s m) + 2 = standing w h m)%nat.
Proof.
  intros Hwf Hc Hn Hhere Hthere.
  assert (tally (fun d => wallAt m d s) (allCoords w h) =
          S (tally (fun d => wallAt (broken c s m) d s) (allCoords w h))) as Hs.
  { apply (standing_hit w h c s m Hwf Hc Hn c s); [done | by left | done | ].
    intros d [[<- _] | [_ E]]; [done | by destruct s]. }
  assert (tally (fun d => wallAt m d (opp s)) (allCoords w h) =
          S (tally (fun d => wallAt (broken c s m) d (opp s)) (allCoords w h))) as Ho.
  { apply (standing_hit w h c s m Hwf Hc Hn (towards c s) (opp s));
      [done | by right | done | ].
    intros d [[_ E] | [<- _]]; [by destruct s | done]. }
  pose proof (standing_miss w h c s m Hwf Hc Hn) as Hmiss.
  unfold standing.
  destruct s; simpl in Ho.
  - rewrite (Hmiss OnRight), (Hmiss OnLeft) by done. lia.
  - rewrite (Hmiss OnTop), (Hmiss OnBottom) by done. lia.
  - rewrite (Hmiss OnRight), (Hmiss OnLeft) by done. lia.
  - rewrite (Hmiss OnTop), (Hmiss OnBottom) by done. lia.
Qed.

(** X13. The size of the drawing: [draw] fills [4 * w * h] rectangles for
    a freshly reset [w] by [h] maze, and [2 * w * h + 2] for a generated
    one, whatever the start and the random choices were: each of the
    [w * h - 1] broken walls takes away the two rectangles of its two
    sides. *)
Theorem draw_rectangle_count (w h : Z) (random : nat → nat) (start : Coordinate)
    (document : string → bool) (canvasId : string) (wallSize : Z) (color : string) :
  inb w h start → document canvasId = true →
  (∃ rects,
      draw document (reset (newMaze w h)) canvasId wallSize color =
      (SetFillStyle color :: rects, None) ∧
      Z.of_nat (length rects) = 4 * (w * h)) ∧
  ∃ r' rects,
    (∀ fuel, (2 * (Z.to_nat w * Z.to_nat h) ≤ fuel)%nat →
             generate random fuel start (startRun (reset (newMaze w h))) = Ok tt r') ∧
    draw document (maze r') canvasId wallSize color =
    (SetFillStyle color :: rects, None) ∧
    Z.of_nat (length rects) = 2 * (w * h) + 2.
Proof.
  intros Hstart Hcanvas.
  assert (Z.of_nat (Z.to_nat w * Z.to_nat h) = w * h) as Hsize
    by (destruct Hstart; rewrite Nat2Z.inj_mul, !Z2Nat.id; lia).
  assert (∀ m, wellFormed w h m →
               ∃ rects, draw document m canvasId wallSize color =
                        (SetFillStyle color :: rects, None) ∧
                        length rects = standing w h m) as Hdraw.
  { intros m (Hw & Hh & _ & Hcells).
    destruct (drawCells_complete m wallSize (allCoords w h)) as (rects & Hrun & _ & Hlen).
    { intros c Hc%elem_of_allCoords. destruct (Hcells c Hc) as (cell & E & _). eauto. }
    exists rects. split; [ | done].
    unfold draw. by rewrite Hcanvas, Hw, Hh, Hrun. }
  split.
  - destruct (Hdraw (reset (newMaze w h))) as (rects & Hrun & Hlen).
    { apply (wellFormed_reset (newMaze w h)). }
    exists rects. split; [done | ]. rewrite Hlen, standing_reset. lia.
  - destruct (generate_from_reset w h random start Hstart) as (r' & Hrun & Hgrown & _).
    destruct (generate_from_reset_counts w h random start r' Hstart Hrun) as [_ Hpairs].
    destruct Hgrown as [[Hwf _] _ _ _ _ _ _ _ _ _ _].
    destruct (Hdraw (maze r') Hwf) as (rects & Hdrawn & Hlen).
    exists r', rects. split; [done | split; [done | ]].
    assert (standing w h (maze r') + 2 * brokenPairs w h (maze r') =
            4 * (Z.to_nat w * Z.to_nat h))%nat as Hinv; [ | lia].
    apply (generate_preserves_from_reset w h random
             (fun r => (standing w h (maze r) + 2 * brokenPairs w h (maze r) =
                        4 * (Z.to_nat w * Z.to_nat h))%nat)
             start (2 * (Z.to_nat w * Z.to_nat h))%nat r');
      [ | | | done | | by apply Hrun].
    + intros c r _ _ _. simpl. by rewrite standing_visit, brokenPairs_visit.
    + intros c s r [Hwf0 Hsym] Hsealed Hc Hn _ Hvn Hinv. simpl.
      assert (wallAt (maze r) (towards c s) (opp s) = true) as Hthere
        by (by apply Hsealed; [ | intros [] | ]).
      assert (wallAt (maze r) c s = true) as Hhere by (by rewrite (Hsym c s)).
      pose proof (standing_broken w h c s (maze r) Hwf0 Hc Hn Hhere Hthere).
      rewrite (brokenPairs_broken w h); [lia | done | done | done | ].
      unfold passage. rewrite Hthere. apply andb_false_r.
    + by intros r.
    + simpl. rewrite standing_reset, brokenPairs_reset. lia.
Qed.

Lemma draw_rectangle_count_witness :
  (inb 32 32 (Coord 0 0) ∧ anyCanvas "mazeCanvas" = true) ∧
  (∃ rects,
      draw anyCanvas (reset (newMaze 32 32)) "mazeCanvas" 16 "#0f0" =
      (SetFillStyle "#0f0" :: rects, None) ∧
      Z.of_nat (length rects) = 4 * (32 * 32)) ∧
  ∃ r' rects,
    (∀ fuel, (2 * (Z.to_nat 32 * Z.to_nat 32) ≤ fuel)%nat →
             generate zeroes fuel (Coord 0 0) (startRun (reset (newMaze 32 32))) = Ok tt r') ∧
    draw anyCanvas (maze r') "mazeCanvas" 16 "#0f0" =
    (SetFillStyle "#0f0" :: rects, None) ∧
    Z.of_nat (length rects) = 2 * (32 * 32) + 2.
Proof.
  assert (inb 32 32 (Coord 0 0) ∧ anyCanvas "mazeCanvas" = true) as H
    by (split; [unfold inb; simpl; lia | reflexivity]).
  split; [exact H | ].
  apply (draw_rectangle_count 32 32 zeroes (Coord 0 0) anyCanvas "mazeCanvas" 16 "#0f0");
    apply H.
Defined.
(** ** Out of range, at any time *)

(** X14. Also after a generation, a start outside the grid makes
    [generate] fail with a [TypeError] before it changes anything: the
    maze, the log of mutations and the number of random draws are as
    before. *)
Theorem generate_out_of_range_anytime (r : Run) (random : nat → nat) (fuel : nat)
    (start : Coordinate) :
  reachable (maze r) →
  ¬ inb (width (maze r)) (height (maze r)) start →
  ∃ r', generate random (S fuel) start r = Throw TypeError r' ∧
        maze r' = maze r ∧ history r' = history r ∧ draws r' = draws r.
Proof.
  intros Hreach Hout. exists (entered r).
  split; [ | split; [done | split; done]].
  apply generate_no_cell.
  pose proof (reachable_evolved _ Hreach) as (_ & _ & Hcells).
  specialize (Hcells start).
  rewrite cellAt_reset, decide_False in Hcells by done.
  by destruct (cellAt (maze r) start).
Qed.

Lemma generate_out_of_range_anytime_witness :
  (reachable (maze generated) ∧
   ¬ inb (width (maze generated)) (height (maze generated)) (Coord 2 0)) ∧
  ∃ r', generate zeroes 1 (Coord 2 0) generated = Throw TypeError r' ∧
        maze r' = maze generated ∧ history r' = history generated ∧
        draws r' = draws generated.
Proof.
  assert (reachable (maze generated) ∧
          ¬ inb (width (maze generated)) (height (maze generated)) (Coord 2 0)) as H.
  { split.
    - apply (reachable_generate zeroes 7 (Coord 0 0) (reset (newMaze 2 2)) generated).
      + apply reachable_reset.
      + apply generated_final.
    - vm_compute. intros [[_ Hx] _]. discriminate Hx. }
  split; [exact H | ].
  apply (generate_out_of_range_anytime generated zeroes 0 (Coord 2 0)); apply H.
Defined.
